(** * Paper summarizer agent: planner, executor, section isolator, sanitizer

    A shallow embedding of [src/src/agent.py], [src/src/extract.py] and the
    post-processing half of [src/src/model_simple.py].

    - Python [str] values are lists of Unicode code points ([N]); the
      string methods the sources call ([in], [find], [split], [replace],
      [strip], slicing, [" ".join]) are defined on that representation.
    - Python dictionaries used as records of results are [gmap]s keyed
      by the literal key strings.
    - Exceptions are an explicit [outcome] type; [try]/[except] is a
      match on it.
    - The two external collaborators (the file system with PyPDF2, and
      the language model with its tokenizer) are fields of a [world]
      record. *)

From Stdlib Require Import NArith Ascii String Lia.
From stdpp Require Import base option list gmap strings.

Local Open Scope N_scope.
Local Open Scope nat_scope.
Local Open Scope list_scope.

(** ** Python strings *)

Module PyStr.

(** A character is a code point; a [str] is a sequence of code points. *)
Abbreviation char := N (only parsing).
Abbreviation str := (list N) (only parsing).

(** Source literals (all ASCII) are written with [lit]. *)
Fixpoint lit (s : string) : str :=
  match s with
  | EmptyString => []
  | String a s' => N_of_ascii a :: lit s'
  end.

(** The line feed ["\n"]. *)
Definition LF : char := 10%N.
Definition SP : char := 32%N.

(** [str.isspace] on one character (CPython's [Py_UNICODE_ISSPACE]):
    the code points [strip()] and the argument-less [split()] treat as
    whitespace. *)
Definition is_space (c : char) : bool :=
  ((9 <=? c) && (c <=? 13) || (28 <=? c) && (c <=? 32) ||
   (c =? 133) || (c =? 160) || (c =? 5760) ||
   (8192 <=? c) && (c <=? 8202) ||
   (c =? 8232) || (c =? 8233) || (c =? 8239) || (c =? 8287) ||
   (c =? 12288))%N.

(** [s.startswith(p)]. *)
Fixpoint starts_with (p s : str) : bool :=
  match p, s with
  | [], _ => true
  | _ :: _, [] => false
  | a :: p', b :: s' => (a =? b)%N && starts_with p' s'
  end.

(** [s.find(sub)]: index of the first occurrence, [None] for Python's -1. *)
Fixpoint find (sub s : str) : option nat :=
  if starts_with sub s then Some 0
  else match s with
       | [] => None
       | _ :: s' => S <$> find sub s'
       end.

(** [sub in s]. *)
Definition contains (sub s : str) : bool :=
  match find sub s with Some _ => true | None => false end.

(** [s.split(sep, maxsplit)] for a non-empty [sep], as CPython computes
    it: repeatedly [find] the separator, cut the piece before it, go on
    after it; the rest of the string is the last piece.  (An empty [sep]
    raises [ValueError] in Python; every caller passes a non-empty
    literal.) *)
Fixpoint split_n (sep : str) (maxsplit : nat) (s : str) : list str :=
  match maxsplit with
  | O => [s]
  | S m =>
      match find sep s with
      | None => [s]
      | Some pos => take pos s :: split_n sep m (drop (pos + length sep) s)
      end
  end.

(** [s.split(sep)]: no limit on the number of cuts.  A non-empty
    separator can be cut out at most [len(s)] times. *)
Definition split (sep s : str) : list str := split_n sep (length s) s.

(** [lst[i]] on a list of strings.  The callers index only pieces that
    exist; out of range (Python's [IndexError]) is the empty string
    here. *)
Definition item (l : list str) (i : nat) : str := nth i l [].

(** [s.replace(old, new)].  For a non-empty [old]: cut at every
    occurrence, left to right without overlap.  For an empty [old]
    Python inserts [new] before every character and at the end. *)
Fixpoint replace_n (fuel : nat) (old new s : str) : str :=
  match fuel with
  | O => s
  | S f =>
      match find old s with
      | None => s
      | Some pos => take pos s ++ new ++ replace_n f old new (drop (pos + length old) s)
      end
  end.

Definition replace (old new s : str) : str :=
  match old with
  | [] => new ++ flat_map (fun c => c :: new) s
  | _ :: _ => replace_n (length s) old new s
  end.

(** [s.lstrip()], [s.rstrip()], [s.strip()]. *)
Fixpoint lstrip (s : str) : str :=
  match s with
  | [] => []
  | c :: s' => if is_space c then lstrip s' else s
  end.

Definition rstrip (s : str) : str := rev (lstrip (rev s)).

Definition strip (s : str) : str := rstrip (lstrip s).

(** [s.split()] without arguments: the maximal runs of non-whitespace
    characters, in order.  [cur] is the run being read, reversed. *)
Fixpoint words_from (cur : str) (s : str) : list str :=
  match s with
  | [] => match cur with [] => [] | _ :: _ => [rev cur] end
  | c :: s' =>
      if is_space c
      then match cur with
           | [] => words_from [] s'
           | _ :: _ => rev cur :: words_from [] s'
           end
      else words_from (c :: cur) s'
  end.

Definition words (s : str) : list str := words_from [] s.

(** [sep.join(l)]. *)
Fixpoint join (sep : str) (l : list str) : str :=
  match l with
  | [] => []
  | [x] => x
  | x :: l' => x ++ sep ++ join sep l'
  end.

(** A phrase whose last character is not whitespace. *)
Fixpoint ends_nonspace (p : str) : bool :=
  match p with
  | [] => false
  | c :: p' =>
      match p' with
      | [] => negb (is_space c)
      | _ :: _ => ends_nonspace p'
      end
  end.

(** A string that does not begin with whitespace. *)
Definition no_leading_space (t : str) : bool :=
  match t with
  | [] => true
  | c :: _ => negb (is_space c)
  end.

(** [s[:n]] for any integer [n]: a negative bound counts from the end. *)
Definition slice_to (n : Z) (s : str) : str :=
  if (0 <=? n)%Z then take (Z.to_nat n) s
  else take (length s - Z.to_nat (- n)) s.

(** [p] occurs in [s] as a block of consecutive characters. *)
Definition occurs (p s : str) : Prop := exists a b, s = a ++ p ++ b.

(** No two whitespace characters stand next to each other. *)
Fixpoint single_spaced (s : str) : bool :=
  match s with
  | [] => true
  | a :: t =>
      match t with
      | [] => true
      | b :: _ => negb (is_space a && is_space b) && single_spaced t
      end
  end.

(** A word: a non-empty run of characters none of which is whitespace. *)
Definition is_word (w : str) : Prop :=
  w <> [] /\ Forall (fun c => is_space c = false) w.

End PyStr.

Import PyStr.

(** ** Exceptions *)

(** The classes the handlers and the dictionary accesses tell apart.
    Every value of [exn] stands for an instance of Python's [Exception]:
    what [open], PyPDF2, the tokenizer, the model and the dictionary and
    string operations raise. *)
Inductive exn_class : Type :=
  | FileNotFoundError
  | KeyError
  | TypeError
  | OtherError (name : string).

(** An exception object: its class and [str(e)]. *)
Record exn : Type := Exn { exn_cls : exn_class; exn_str : str }.

(** The result of running a piece of Python: it returns a value or
    raises. *)
Inductive outcome (A : Type) : Type :=
  | Ret (a : A)
  | Raise (e : exn).
Arguments Ret {A} a.
Arguments Raise {A} e.

#[export] Instance outcome_ret : MRet outcome := fun A a => Ret a.
#[export] Instance outcome_bind : MBind outcome := fun A B f m =>
  match m with
  | Ret a => f a
  | Raise e => Raise e
  end.

(** [isinstance(e, FileNotFoundError)]. *)
Definition is_file_not_found (e : exn) : bool :=
  match exn_cls e with FileNotFoundError => true | _ => false end.

(** ** The world outside: PDF files and the language model *)

(** What [PyPDF2.PdfReader] exposes to [extract_text_from_pdf]: the
    pages, each with the outcome of its [extract_text()], and the
    document information dictionary ([None] when the file has none). *)
Record pdf_reader : Type := PdfReader {
  pages : list (outcome str);
  reader_metadata : option (gmap string str)
}.

Record world : Type := World {
  (** [open(pdf_path, 'rb')] followed by [PyPDF2.PdfReader(file)]. *)
  open_pdf : str -> outcome pdf_reader;
  (** tokenizer, [model.generate] and [tokenizer.decode]: from the
      prompt to the decoded output of this call. *)
  generate : str -> outcome str
}.

(** ** extract.py *)

Module Extract.

Inductive meta_value : Type :=
  | MInt (n : Z)
  | MStr (s : str).

(** The dictionary [extract_text_from_pdf] returns.  Its ['error'] key
    is present only in the two failure results. *)
Record extraction : Type := Extraction {
  text : str;
  metadata : gmap string meta_value;
  success : bool;
  error : option str
}.

(** The loop over the pages: a page with non-empty text contributes the
    text and a line feed. *)
Fixpoint read_pages (ps : list (outcome str)) (full_text : str) : outcome str :=
  match ps with
  | [] => Ret full_text
  | page :: rest =>
      t ← page;
      read_pages rest (match t with [] => full_text | _ :: _ => full_text ++ t ++ [LF] end)
  end.

(** The body of the [try] block. *)
Definition read_pdf (w : world) (pdf_path : str) : outcome extraction :=
  r ← open_pdf w pdf_path;
  let metadata : gmap string meta_value :=
    <["title" := MStr (lit "Unknown")]>
      {["num_pages" := MInt (Z.of_nat (length (pages r)))]} in
  let metadata :=
    match reader_metadata r with
    | Some info =>
        if bool_decide (info = ∅) then metadata
        else <["title" := MStr (default (lit "Unknown") (info !! "/Title"))]> metadata
    | None => metadata
    end in
  full_text ← read_pages (pages r) [];
  let full_text := strip (replace [LF; LF] [LF] full_text) in
  Ret {| text := full_text; metadata := metadata; success := true; error := None |}.

(** [try: ... except FileNotFoundError: ... except Exception as e: ...] *)
Definition extract_text_from_pdf (w : world) (pdf_path : str) : outcome extraction :=
  match read_pdf w pdf_path with
  | Ret r => Ret r
  | Raise e =>
      if is_file_not_found e
      then Ret {| text := []; metadata := ∅; success := false;
                  error := Some (lit "File not found: " ++ pdf_path) |}
      else Ret {| text := []; metadata := ∅; success := false;
                  error := Some (exn_str e) |}
  end.

(** The loop of [chunk_text] over the words, with its three
    variables; the result is [chunks] after the statement that follows
    the loop ("Add remaining words"). *)
Fixpoint chunk_loop (max_length : Z) (ws : list str)
    (chunks current_chunk : list str) (current_length : Z) : list str :=
  match ws with
  | [] =>
      match current_chunk with
      | [] => chunks
      | _ :: _ => chunks ++ [join [SP] current_chunk]
      end
  | word :: rest =>
      let word_length := (Z.of_nat (length word) + 1)%Z in
      if (current_length + word_length >? max_length)%Z
      then
        chunk_loop max_length rest
          (match current_chunk with
           | [] => chunks
           | _ :: _ => chunks ++ [join [SP] current_chunk]
           end)
          [word] word_length
      else
        chunk_loop max_length rest chunks (current_chunk ++ [word])
          (current_length + word_length)%Z
  end.

Definition chunk_text (text : str) (max_length : Z) : list str :=
  let chunks := chunk_loop max_length (words text) [] [] 0 in
  match chunks with
  | [] => [slice_to max_length text]
  | _ :: _ => chunks
  end.

End Extract.

(** ** model_simple.py *)

Module Model.

Definition stop_phrases : list str :=
  [ lit "Question:"; lit "Questions:"; lit "[QUESTION"; lit "[Q:"; lit "Q:";
    lit "References:"; lit "Reference:"; lit "Bibliography:";
    [LF; LF] ++ lit "##"; lit "##";
    lit "Introduction:"; lit "Conclusion:";
    lit "Note:"; lit "Notes:";
    lit "Acknowledgment"; lit "Acknowledgement";
    lit "Appendix"; lit "Figure"; lit "Table" ].

(** The f-string of [summarize]. *)
Definition build_prompt (text : str) : str :=
  lit "You are an academic paper summarizer. Provide a concise, single-paragraph summary of the following abstract."
  ++ [LF; LF] ++ lit "Abstract:" ++ [LF] ++ take 2000 text
  ++ [LF; LF] ++ lit "Summary:".

(** "Extract only the summary part". *)
Definition summary_part (full_output prompt : str) : str :=
  if contains (lit "Summary:") full_output
  then strip (List.last (split_n (lit "Summary:") 1 full_output) [])
  else strip (replace prompt [] full_output).

(** The loop over [stop_phrases]. *)
Fixpoint remove_stop_phrases (phrases : list str) (summary : str) : str :=
  match phrases with
  | [] => summary
  | phrase :: rest =>
      remove_stop_phrases rest
        (if contains phrase summary
         then strip (item (split phrase summary) 0)
         else summary)
  end.

(** [summary[:800] if len(summary) > 800 else summary]. *)
Definition limit_length (summary : str) : str :=
  if 800 <? length summary then take 800 summary else summary.

(** Everything [summarize] does to the decoded model output. *)
Definition sanitize (full_output prompt : str) : str :=
  let summary := summary_part full_output prompt in
  let summary := remove_stop_phrases stop_phrases summary in
  let summary := join [SP] (words summary) in
  limit_length summary.

Definition summarize (w : world) (text : str) : outcome str :=
  let prompt := build_prompt text in
  full_output ← generate w prompt;
  Ret (sanitize full_output prompt).

End Model.

(** ** agent.py *)

Module Agent.
Import Extract Model.

(** One entry of the plan: the dictionary with the keys ['step'],
    ['action'], ['input'] and ['description']. *)
Record step : Type := Step {
  step_no : Z;
  action : string;
  input : str;
  description : string
}.

Definition create_plan (pdf_path : str) : list step :=
  [ {| step_no := 1; action := "extract_text"; input := pdf_path;
       description := "Extract all text from PDF" |};
    {| step_no := 2; action := "clean_text"; input := lit "extracted_text";
       description := "Isolate relevant sections (abstract/introduction)" |};
    {| step_no := 3; action := "summarize"; input := lit "clean_text";
       description := "Generate concise summary" |};
    {| step_no := 4; action := "format_output"; input := lit "summary";
       description := "Format and finalize output" |} ].

Definition start_keywords : list str :=
  [ lit "Abstract"; lit "ABSTRACT"; lit "Summary"; lit "Introduction";
    lit "1. Introduction"; lit "I. INTRODUCTION" ].

Definition end_keywords : list str :=
  [ lit "Keywords:"; lit "Key words:"; lit "1. Introduction";
    lit "1 Introduction"; lit "I. INTRODUCTION"; lit "Contents";
    lit "Introduction" ++ [LF] ].

(** "Find start": the loop with [break].  [None] is [found_start] still
    false at the end. *)
Fixpoint find_start (keywords : list str) (text : str) : option str :=
  match keywords with
  | [] => None
  | keyword :: rest =>
      if contains keyword text
      then Some (item (split_n keyword 1 text) 1)
      else find_start rest text
  end.

(** "Find end": the loop with [break]. *)
Fixpoint find_end (keywords : list str) (extracted_text : str) : str :=
  match keywords with
  | [] => extracted_text
  | keyword :: rest =>
      if contains keyword extracted_text
      then item (split_n keyword 1 extracted_text) 0
      else find_end rest extracted_text
  end.

(** The value of [cleaned] before the length is validated. *)
Definition cleaned_section (text : str) : str :=
  let extracted_text :=
    match find_start start_keywords text with
    | Some after => after
    | None => take 3000 text
    end in
  let extracted_text := find_end end_keywords extracted_text in
  replace [LF] [SP] (strip extracted_text).

Definition _find_abstract (text : str) : str :=
  let cleaned := cleaned_section text in
  if length cleaned <? 50
  then replace [LF] [SP] (take 2000 text)
  else cleaned.

(** The values stored in the results dictionary. *)
Inductive value : Type :=
  | VStr (s : str)
  | VExtraction (e : extraction).

(** [results[key]]. *)
Definition getitem (results : gmap string value) (key : string) : outcome value :=
  match results !! key with
  | Some v => Ret v
  | None => Raise (Exn KeyError (lit "'" ++ lit key ++ lit "'"))
  end.

(** [v['text']], [v['success']]: only the extraction dictionary can be
    indexed by a key.  The only assignment to ['extracted'] stores an
    extraction dictionary, so the second case is not reached from an
    empty [results]. *)
Definition as_extraction (v : value) : outcome extraction :=
  match v with
  | VExtraction e => Ret e
  | VStr _ => Raise (Exn TypeError (lit "string indices must be integers"))
  end.

(** A value used where the code needs a string ([text[:2000]]).  The
    only assignment to ['clean_text'] stores a string, so the second
    case is not reached from an empty [results]. *)
Definition as_str (v : value) : outcome str :=
  match v with
  | VStr s => Ret s
  | VExtraction _ => Raise (Exn TypeError (lit "unhashable type: 'slice'"))
  end.

(** How the body of one loop iteration ends without raising: it falls
    through to the next step, or it executes [return results]. *)
Inductive flow : Type :=
  | Next (results : gmap string value)
  | Return (results : gmap string value).

(** The body of the [try] block for one step.  Every statement that can
    raise comes before the step's assignment to [results], so when the
    body raises, [results] is as it was when the step started. *)
Definition run_step (w : world) (st : step) (results : gmap string value) : outcome flow :=
  if String.eqb (action st) "extract_text" then
    e ← extract_text_from_pdf w (input st);
    let results := <["extracted" := VExtraction e]> results in
    if negb (success e) then Ret (Return results) else Ret (Next results)
  else if String.eqb (action st) "clean_text" then
    v ← getitem results "extracted";
    e ← as_extraction v;
    let raw_text := text e in
    Ret (Next (<["clean_text" := VStr (_find_abstract raw_text)]> results))
  else if String.eqb (action st) "summarize" then
    v ← getitem results "clean_text";
    t ← as_str v;
    summary ← summarize w t;
    Ret (Next (<["summary" := VStr summary]> results))
  else if String.eqb (action st) "format_output" then
    v ← getitem results "summary";
    Ret (Next (<["final_summary" := v]> results))
  else Ret (Next results).

(** The loop of [execute_plan], from a given [results]. *)
Fixpoint run_steps (w : world) (plan : list step) (results : gmap string value)
  : gmap string value :=
  match plan with
  | [] => results
  | st :: rest =>
      match run_step w st results with
      | Ret (Next results') => run_steps w rest results'
      | Ret (Return results') => results'
      | Raise e => <["error" := VStr (exn_str e)]> results
      end
  end.

Definition execute_plan (w : world) (plan : list step) : gmap string value :=
  run_steps w plan ∅.

Definition run (w : world) (pdf_path : str) : str :=
  let plan := create_plan pdf_path in
  let results := execute_plan w plan in
  match results !! "final_summary" with
  | Some (VStr s) => s
  | Some (VExtraction _) => []
  | None => []
  end.

End Agent.

(** ** fine_tuning/prepare_data.py: the loop that builds the examples *)

Module PrepareData.

(** One record of the dataset.  Both datasets the script loads declare
    their columns as strings, so a value is a string or [None]. *)
Abbreviation item := (gmap string (option str)) (only parsing).

(** [f"{v}"] for a column value: the string itself, or "None". *)
Definition format_value (v : option str) : str :=
  match v with
  | Some s => s
  | None => lit "None"
  end.

(** The f-string of a training example. *)
Definition example_text (article abstract : str) : str :=
  lit "Summarize this academic paper concisely." ++ [LF; LF] ++
  lit "Paper:" ++ [LF] ++ article ++ [LF; LF] ++
  lit "Summary:" ++ [LF] ++ abstract.

(** [v[:3000]] for a column value; slicing [None] raises TypeError. *)
Definition slice_article (v : option str) : outcome str :=
  match v with
  | Some s => Ret (take 3000 s)
  | None => Raise (Exn TypeError (lit "'NoneType' object is not subscriptable"))
  end.

(** The body of the [try] block for one record, up to the
    [training_example] it builds; [Ret None] is the [continue] of the
    [else] branch. *)
Definition build_example (it : item) : outcome (option (gmap string str)) :=
  let make (article_col abstract_col : option str) :=
    article ← slice_article article_col;
    let abstract := format_value abstract_col in
    Ret (Some ({[ "text" := example_text article abstract ]} : gmap string str)) in
  match it !! "article", it !! "abstract" with
  | Some a, Some b => make a b
  | _, _ =>
      match it !! "document", it !! "summary" with
      | Some d, Some s => make d s
      | _, _ => Ret None
      end
  end.

(** The loop over [enumerate(dataset)], from index [i] on. *)
Fixpoint process_from (i : nat) (dataset : list item)
    (training_data : list (gmap string str)) : list (gmap string str) :=
  match dataset with
  | [] => training_data
  | it :: rest =>
      if 1000 <=? i then training_data
      else
        match build_example it with
        | Ret (Some training_example) =>
            process_from (S i) rest (training_data ++ [training_example])
        | Ret None => process_from (S i) rest training_data
        | Raise _ => process_from (S i) rest training_data
        end
  end.

(** [training_data] after the loop ("2. Processing papers"). *)
Definition process_papers (dataset : list item) : list (gmap string str) :=
  process_from 0 dataset [].

End PrepareData.

(** ** Worlds used as concrete inputs *)

Module Worlds.
Import Extract Model Agent.

(** No file exists at any path; the model echoes its prompt. *)
Definition no_files : world :=
  {| open_pdf := fun path =>
       Raise (Exn FileNotFoundError (lit "[Errno 2] No such file or directory"));
     generate := fun prompt => Ret prompt |}.

(** Every path opens, but the file is not a PDF. *)
Definition broken_pdf : world :=
  {| open_pdf := fun path =>
       Raise (Exn (OtherError "PdfReadError") (lit "EOF marker not found"));
     generate := fun prompt => Ret prompt |}.

Definition one_page : pdf_reader :=
  {| pages := [Ret (lit "A short paper." ++ [LF] ++ lit "It has one page.")];
     reader_metadata := None |}.

(** Every path holds a one-page paper; the model call raises. *)
Definition model_down : world :=
  {| open_pdf := fun path => Ret one_page;
     generate := fun prompt =>
       Raise (Exn (OtherError "RuntimeError") (lit "CUDA out of memory")) |}.

(** Every path holds a one-page paper; the model appends a sentence to
    the prompt. *)
Definition all_fine : world :=
  {| open_pdf := fun path => Ret one_page;
     generate := fun prompt => Ret (prompt ++ lit " A paper of one page.") |}.

(** Every path holds a two-page file whose second page cannot be
    read. *)
Definition torn_page : world :=
  {| open_pdf := fun path =>
       Ret {| pages := [Ret (lit "Page one.");
                        Raise (Exn (OtherError "PdfReadError") (lit "Invalid page object"))];
              reader_metadata := None |};
     generate := fun prompt => Ret prompt |}.

End Worlds.

(** ** The specification's wording of the marker and stop-phrase rules *)

Module Spec.

(** "The first marker found, by ordinal position of the list": the
    first entry of [keywords] that occurs anywhere in [t]. *)
Definition first_present (keywords : list str) (t : str) : option str :=
  List.find (fun keyword => contains keyword t) keywords.

(** "Everything before the first occurrence" of [p]; all of [t] when
    [p] does not occur. *)
Definition before_first (p t : str) : str :=
  match find p t with
  | Some i => take i t
  | None => t
  end.

(** "The text after the first occurrence" of [p]. *)
Definition after_first (p t : str) : str :=
  match find p t with
  | Some i => drop (i + length p) t
  | None => t
  end.

(** "For each phrase, if present, truncate the text to everything
    before its first occurrence, applying phrases in listed order
    (later truncations operate on the already-truncated text)". *)
Definition truncate_in_order (phrases : list str) (t : str) : str :=
  fold_left (fun cur phrase => before_first phrase cur) phrases t.

End Spec.

(** * Properties *)

Import Extract Model Agent Spec.

(** ** The planner *)

(** C4: for every document reference, the empty string included,
    [create_plan] returns exactly four steps, numbered 1, 2, 3, 4 in
    order, with the actions extract_text, clean_text, summarize,
    format_output in that order; as a total function it has no failing
    case. *)
Theorem create_plan_fixed_shape :
  (forall pdf_path : str,
      length (create_plan pdf_path) = 4 /\
      map step_no (create_plan pdf_path) = [1; 2; 3; 4]%Z /\
      map action (create_plan pdf_path) =
        ["extract_text"; "clean_text"; "summarize"; "format_output"]%string) /\
  map action (create_plan []) =
    ["extract_text"; "clean_text"; "summarize"; "format_output"]%string.
Proof. split; [intros pdf_path; repeat split | reflexivity]. Qed.

(** ** The length limit of the sanitizer *)

Lemma limit_length_le (s : str) : length (limit_length s) <= 800.
Proof.
  unfold limit_length.
  destruct (800 <? length s) eqn:E.
  - rewrite length_take. lia.
  - apply Nat.ltb_ge in E. lia.
Qed.

(** C8: whatever the decoded model output and the prompt, the sanitized
    summary has at most 800 characters. *)
Theorem sanitize_at_most_800 (full_output prompt : str) :
  length (sanitize full_output prompt) <= 800.
Proof. unfold sanitize. apply limit_length_le. Qed.

(** ** The extractor's exception boundary *)

Lemma read_pdf_open_raises (w : world) (pdf_path : str) (e : exn) :
  open_pdf w pdf_path = Raise e -> read_pdf w pdf_path = Raise e.
Proof. intros H. unfold read_pdf. rewrite H. reflexivity. Qed.

(** C9: [extract_text_from_pdf] always returns a dictionary and never
    raises: when the file is missing ([open] raises FileNotFoundError)
    the dictionary has success false and the error "File not found: "
    followed by the path; when its body raises anything else, the
    dictionary has success false and the exception's message as
    error. *)
Theorem extract_text_from_pdf_total (w : world) (pdf_path : str) :
  (exists r, extract_text_from_pdf w pdf_path = Ret r) /\
  (forall e, open_pdf w pdf_path = Raise e -> is_file_not_found e = true ->
     extract_text_from_pdf w pdf_path =
       Ret {| text := []; metadata := ∅; success := false;
              error := Some (lit "File not found: " ++ pdf_path) |}) /\
  (forall e, read_pdf w pdf_path = Raise e -> is_file_not_found e = false ->
     extract_text_from_pdf w pdf_path =
       Ret {| text := []; metadata := ∅; success := false;
              error := Some (exn_str e) |}).
Proof.
  repeat split.
  - unfold extract_text_from_pdf.
    destruct (read_pdf w pdf_path) as [r|e]; [eauto|].
    destruct (is_file_not_found e); eauto.
  - intros e Ho Hc. apply read_pdf_open_raises in Ho.
    unfold extract_text_from_pdf. rewrite Ho, Hc. reflexivity.
  - intros e Hr Hc. unfold extract_text_from_pdf. rewrite Hr, Hc. reflexivity.
Qed.

Lemma extract_text_from_pdf_total_witness :
  extract_text_from_pdf Worlds.no_files (lit "missing.pdf") =
    Ret {| text := []; metadata := ∅; success := false;
           error := Some (lit "File not found: missing.pdf") |} /\
  extract_text_from_pdf Worlds.broken_pdf (lit "notes.txt") =
    Ret {| text := []; metadata := ∅; success := false;
           error := Some (lit "EOF marker not found") |}.
Proof.
  split.
  - exact (proj1 (proj2 (extract_text_from_pdf_total Worlds.no_files (lit "missing.pdf")))
             _ eq_refl eq_refl).
  - exact (proj2 (proj2 (extract_text_from_pdf_total Worlds.broken_pdf (lit "notes.txt")))
             _ eq_refl eq_refl).
Defined.

(** ** The executor on the planner's plan *)

(** The extractor always hands a dictionary to the executor. *)
Lemma extract_text_from_pdf_returns (w : world) (pdf_path : str) :
  exists ex, extract_text_from_pdf w pdf_path = Ret ex.
Proof.
  unfold extract_text_from_pdf.
  destruct (read_pdf w pdf_path) as [r|e]; [eauto|].
  destruct (is_file_not_found e); eauto.
Qed.

(** The three ways a run of the four-step plan can end. *)
Lemma execute_plan_create_plan (w : world) (pdf_path : str) (ex : extraction) :
  extract_text_from_pdf w pdf_path = Ret ex ->
  execute_plan w (create_plan pdf_path) =
    if success ex then
      let cleaned :=
        <["clean_text" := VStr (_find_abstract (text ex))]>
          (<["extracted" := VExtraction ex]> (∅ : gmap string value)) in
      match summarize w (_find_abstract (text ex)) with
      | Ret summary =>
          <["final_summary" := VStr summary]> (<["summary" := VStr summary]> cleaned)
      | Raise e => <["error" := VStr (exn_str e)]> cleaned
      end
    else <["extracted" := VExtraction ex]> ∅.
Proof.
  intros Hex. unfold execute_plan, create_plan.
  cbn [run_steps]. unfold run_step at 1. cbn [action input String.eqb Ascii.eqb Bool.eqb].
  rewrite Hex. cbn [mbind outcome_bind].
  destruct (success ex); cbn [negb]; [|reflexivity].
  unfold run_step at 1. cbn [action input String.eqb Ascii.eqb Bool.eqb].
  unfold getitem. rewrite lookup_insert_eq. cbn [mbind outcome_bind as_extraction].
  unfold run_step at 1. cbn [action input String.eqb Ascii.eqb Bool.eqb].
  unfold getitem. rewrite lookup_insert_eq. cbn [mbind outcome_bind as_str].
  destruct (summarize w (_find_abstract (text ex))) as [summary|e];
    cbn [mbind outcome_bind]; [|reflexivity].
  unfold run_step at 1. cbn [action input String.eqb Ascii.eqb Bool.eqb].
  unfold getitem. rewrite lookup_insert_eq. reflexivity.
Qed.

(** A result with ['final_summary'] comes from a run in which all four
    steps ran to their end: the three earlier keys are present, the
    final summary is the summary, and there is no ['error']. *)
Lemma final_summary_all_steps (w : world) (pdf_path : str) (v : value) :
  execute_plan w (create_plan pdf_path) !! "final_summary" = Some v ->
  exists ex summary,
    extract_text_from_pdf w pdf_path = Ret ex /\ success ex = true /\
    summarize w (_find_abstract (text ex)) = Ret summary /\
    v = VStr summary /\
    execute_plan w (create_plan pdf_path) =
      <["final_summary" := VStr summary]>
        (<["summary" := VStr summary]>
          (<["clean_text" := VStr (_find_abstract (text ex))]>
            (<["extracted" := VExtraction ex]> ∅))) /\
    execute_plan w (create_plan pdf_path) !! "error" = None.
Proof.
  destruct (extract_text_from_pdf_returns w pdf_path) as [ex Hex].
  rewrite (execute_plan_create_plan w pdf_path ex Hex).
  destruct (success ex) eqn:Hs; [|intros H; by simplify_map_eq].
  cbn zeta.
  destruct (summarize w (_find_abstract (text ex))) as [summary|e] eqn:Hm;
    intros H; [|by simplify_map_eq].
  exists ex, summary. simplify_map_eq. done.
Qed.

(** A run in which nothing fails, end to end: the one-page paper is
    read, its text is too short for the isolator and comes back whole,
    and the sentence the model adds after the prompt is the summary. *)
Example run_all_fine :
  run Worlds.all_fine (lit "paper.pdf") = lit "A paper of one page." /\
  execute_plan Worlds.all_fine (create_plan (lit "paper.pdf")) !! "error" = None.
Proof. split; vm_compute; reflexivity. Qed.

(** C1: on the plan of [create_plan], with no file at the path, the
    dictionary [execute_plan] returns holds the extractor's failure
    under ['extracted'] and nothing else: neither ['final_summary'] nor
    ['error'] is a key of it. *)
Theorem execute_plan_missing_file_neither_key :
  let results := execute_plan Worlds.no_files (create_plan (lit "missing.pdf")) in
  results !! "final_summary" = None /\
  results !! "error" = None /\
  results =
    {[ "extracted" :=
         VExtraction {| text := []; metadata := ∅; success := false;
                        error := Some (lit "File not found: missing.pdf") |} ]}.
Proof.
  cbn zeta.
  assert (Hex : extract_text_from_pdf Worlds.no_files (lit "missing.pdf") =
                Ret {| text := []; metadata := ∅; success := false;
                       error := Some (lit "File not found: missing.pdf") |})
    by reflexivity.
  rewrite (execute_plan_create_plan _ _ _ Hex). cbn [success].
  rewrite insert_empty. by simplify_map_eq.
Qed.

(** C2: whenever the extractor reports failure, [execute_plan] runs no
    further step and returns the dictionary with the single key
    ['extracted']: it has none of ['clean_text'], ['summary'],
    ['final_summary'], and it has no ['error'] key either. *)
Theorem execute_plan_extraction_failure
    (w : world) (pdf_path : str) (ex : extraction) :
  extract_text_from_pdf w pdf_path = Ret ex ->
  success ex = false ->
  let results := execute_plan w (create_plan pdf_path) in
  results = {[ "extracted" := VExtraction ex ]} /\
  results !! "error" = None /\
  results !! "clean_text" = None /\
  results !! "summary" = None /\
  results !! "final_summary" = None.
Proof.
  intros Hex Hs. cbn zeta.
  rewrite (execute_plan_create_plan w pdf_path ex Hex), Hs, insert_empty.
  by simplify_map_eq.
Qed.

Lemma execute_plan_extraction_failure_witness :
  execute_plan Worlds.broken_pdf (create_plan (lit "notes.txt")) !! "error" = None.
Proof.
  exact (proj1 (proj2
    (execute_plan_extraction_failure Worlds.broken_pdf (lit "notes.txt") _
       eq_refl eq_refl))).
Defined.

(** C3: when extraction succeeds and the summarizer call of the third
    step raises, [execute_plan] returns normally; its result holds the
    exception's message under ['error'] and the isolated section under
    ['clean_text'], and has neither ['summary'] nor ['final_summary']. *)
Theorem execute_plan_summarizer_raises
    (w : world) (pdf_path : str) (ex : extraction) (e : exn) :
  extract_text_from_pdf w pdf_path = Ret ex ->
  success ex = true ->
  summarize w (_find_abstract (text ex)) = Raise e ->
  let results := execute_plan w (create_plan pdf_path) in
  results !! "error" = Some (VStr (exn_str e)) /\
  results !! "clean_text" = Some (VStr (_find_abstract (text ex))) /\
  results !! "summary" = None /\
  results !! "final_summary" = None.
Proof.
  intros Hex Hs Hm. cbn zeta.
  rewrite (execute_plan_create_plan w pdf_path ex Hex), Hs. cbn zeta.
  rewrite Hm. by simplify_map_eq.
Qed.

Lemma execute_plan_summarizer_raises_witness :
  let results := execute_plan Worlds.model_down (create_plan (lit "paper.pdf")) in
  results !! "error" = Some (VStr (lit "CUDA out of memory")) /\
  results !! "clean_text" =
    Some (VStr (lit "A short paper. It has one page.")) /\
  results !! "summary" = None /\
  results !! "final_summary" = None.
Proof.
  exact (execute_plan_summarizer_raises Worlds.model_down (lit "paper.pdf") _ _
           eq_refl eq_refl eq_refl).
Defined.

(** ** Facts about the string operations *)

Section StringFacts.
Implicit Types (s t p sep : list N) (c : N).

Lemma starts_with_length p s : starts_with p s = true -> length p <= length s.
Proof.
  revert s. induction p as [|a p IH]; intros [|b s]; cbn; try lia; try discriminate.
  intros H. apply andb_true_iff in H as [_ H]. apply IH in H. lia.
Qed.

(** An occurrence found by [find] lies inside the string. *)
Lemma find_bound p s i : find p s = Some i -> i + length p <= length s.
Proof.
  revert i. induction s as [|b s IH]; intros i; cbn [find].
  - destruct (starts_with p []) eqn:E; [|discriminate].
    intros [= <-]. apply starts_with_length in E. cbn in *. lia.
  - destruct (starts_with p (b :: s)) eqn:E.
    + intros [= <-]. apply starts_with_length in E. cbn in *. lia.
    + destruct (find p s) as [j|]; [|discriminate].
      intros [= <-]. specialize (IH j eq_refl). cbn. lia.
Qed.

Lemma contains_find p s : contains p s = true <-> exists i, find p s = Some i.
Proof.
  unfold contains. destruct (find p s) as [i|]; split; eauto.
  - discriminate.
  - intros [i [=]].
Qed.

Lemma find_contains p s i : find p s = Some i -> contains p s = true.
Proof. intros H. apply contains_find. eauto. Qed.

Lemma contains_false_find p s : contains p s = false -> find p s = None.
Proof. unfold contains. destruct (find p s); [discriminate | reflexivity]. Qed.

(** The two pieces of [s.split(sep, 1)] when [sep] occurs. *)
Lemma split_n_1_found sep s i :
  find sep s = Some i -> split_n sep 1 s = [take i s; drop (i + length sep) s].
Proof. intros H. cbn [split_n]. rewrite H. reflexivity. Qed.

(** The first piece of [s.split(sep)] when [sep] occurs. *)
Lemma split_head_found sep s i :
  find sep s = Some i -> item (split sep s) 0 = take i s.
Proof.
  intros H. unfold split, item. destruct s as [|b s]; cbn [length split_n].
  - by rewrite take_nil.
  - rewrite H. reflexivity.
Qed.

Lemma find_nil_nonempty p : p <> [] -> find p [] = None.
Proof. destruct p; [done|]. reflexivity. Qed.

(** [split] has all the cuts it needs: more of them change nothing. *)
Lemma split_n_enough sep n m s :
  sep <> [] -> length s <= n -> length s <= m ->
  split_n sep n s = split_n sep m s.
Proof.
  intros Hsep. revert m s.
  induction n as [|n IH]; intros [|m] s Hn Hm; cbn [split_n]; try done.
  - destruct s; [|cbn in Hn; lia]. by rewrite find_nil_nonempty.
  - destruct s; [|cbn in Hm; lia]. by rewrite find_nil_nonempty.
  - destruct (find sep s) as [i|] eqn:E; [|done].
    apply find_bound in E. f_equal.
    assert (0 < length sep) by (destruct sep; [done | cbn; lia]).
    apply IH; rewrite length_drop; lia.
Qed.

Lemma split_n_split sep n s :
  sep <> [] -> length s <= n -> split_n sep n s = split sep s.
Proof. intros Hsep Hn. unfold split. by apply split_n_enough. Qed.

(** Likewise for [replace]. *)
Lemma replace_n_enough old new n m s :
  old <> [] -> length s <= n -> length s <= m ->
  replace_n n old new s = replace_n m old new s.
Proof.
  intros Hold. revert m s.
  induction n as [|n IH]; intros [|m] s Hn Hm; cbn [replace_n]; try done.
  - destruct s; [|cbn in Hn; lia]. by rewrite find_nil_nonempty.
  - destruct s; [|cbn in Hm; lia]. by rewrite find_nil_nonempty.
  - destruct (find old s) as [i|] eqn:E; [|done].
    apply find_bound in E. do 2 f_equal.
    assert (0 < length old) by (destruct old; [done | cbn; lia]).
    apply IH; rewrite length_drop; lia.
Qed.

(** One unfolding of [replace], with fuel to spare. *)
Lemma replace_n_unfold old new n s :
  old <> [] -> length s <= n ->
  replace_n n old new s =
    match find old s with
    | Some i => take i s ++ new ++ replace_n n old new (drop (i + length old) s)
    | None => s
    end.
Proof.
  intros Hold Hn. destruct n as [|n].
  - destruct s; [|cbn in Hn; lia]. cbn [replace_n]. by rewrite find_nil_nonempty.
  - transitivity
      (match find old s with
       | Some i => take i s ++ new ++ replace_n n old new (drop (i + length old) s)
       | None => s
       end); [reflexivity|].
    destruct (find old s) as [i|] eqn:E; [|done].
    apply find_bound in E. do 2 f_equal.
    assert (0 < length old) by (destruct old; [done | cbn; lia]).
    apply replace_n_enough; [done | |]; rewrite length_drop; lia.
Qed.

(** Replacing one character by another is a character-wise map. *)
Lemma replace_char_map a b s :
  replace [a] [b] s = map (fun c => if (c =? a)%N then b else c) s.
Proof.
  unfold replace.
  assert (G : forall n, length s <= n ->
            replace_n n [a] [b] s = map (fun c => if (c =? a)%N then b else c) s);
    [|by apply G].
  induction s as [|c s IH]; intros n Hn.
  - rewrite replace_n_unfold by done. reflexivity.
  - cbn [length] in Hn. rewrite replace_n_unfold by done.
    cbn [find starts_with map]. rewrite N.eqb_sym, andb_true_r.
    destruct (c =? a)%N eqn:E.
    + cbn [take drop app Nat.add length]. f_equal. apply IH. lia.
    + rewrite <- (IH n) by lia. rewrite (replace_n_unfold [a] [b] n s) by (done || lia).
      destruct (find [a] s) as [i|]; reflexivity.
Qed.

Lemma lstrip_length s : length (lstrip s) <= length s.
Proof.
  induction s as [|c s IH]; cbn; [lia|].
  destruct (is_space c); cbn; lia.
Qed.

Lemma rstrip_length s : length (rstrip s) <= length s.
Proof.
  unfold rstrip. rewrite length_rev.
  etransitivity; [apply lstrip_length|]. by rewrite length_rev.
Qed.

Lemma strip_length s : length (strip s) <= length s.
Proof.
  unfold strip. etransitivity; [apply rstrip_length | apply lstrip_length].
Qed.

(** Replacing one character by one character keeps the length. *)
Lemma replace_n_char_length fuel a b s :
  length (replace_n fuel [a] [b] s) = length s.
Proof.
  revert s. induction fuel as [|f IH]; intros s; cbn [replace_n]; [done|].
  destruct (find [a] s) as [i|] eqn:E; [|done].
  apply find_bound in E. cbn [length] in E.
  rewrite !length_app, IH, length_take, length_drop. cbn [length]. lia.
Qed.

Lemma replace_char_length a b s : length (replace [a] [b] s) = length s.
Proof. unfold replace. apply replace_n_char_length. Qed.

End StringFacts.

(** ** The section isolator *)

Section Isolator.
Implicit Types (text t : list N) (keywords : list (list N)).

(** The start loop takes the first entry of its list that occurs in the
    text, and keeps what follows the first occurrence of that entry. *)
Lemma find_start_first_present keywords text :
  find_start keywords text =
    (fun keyword => after_first keyword text) <$> first_present keywords text.
Proof.
  unfold first_present.
  induction keywords as [|k ks IH]; cbn [find_start List.find]; [done|].
  destruct (contains k text) eqn:E; [|exact IH].
  apply contains_find in E as [i Hi].
  rewrite (split_n_1_found _ _ _ Hi).
  cbn [fmap option_fmap option_map]. unfold after_first. by rewrite Hi.
Qed.

(** The end loop takes the first entry of its list that occurs in the
    working text, and keeps what precedes its first occurrence. *)
Lemma find_end_first_present keywords t :
  find_end keywords t =
    match first_present keywords t with
    | Some keyword => before_first keyword t
    | None => t
    end.
Proof.
  unfold first_present.
  induction keywords as [|k ks IH]; cbn [find_end List.find]; [done|].
  destruct (contains k t) eqn:E; [|exact IH].
  apply contains_find in E as [i Hi].
  unfold before_first. rewrite (split_n_1_found _ _ _ Hi), Hi. done.
Qed.

Lemma after_first_length p t : length (after_first p t) <= length t.
Proof.
  unfold after_first. destruct (find p t); [|done].
  rewrite length_drop. lia.
Qed.

Lemma before_first_length p t : length (before_first p t) <= length t.
Proof.
  unfold before_first. destruct (find p t); [|done].
  rewrite length_take. lia.
Qed.

(** The isolated section is never longer than the text it is cut from. *)
Lemma cleaned_section_length text : length (cleaned_section text) <= length text.
Proof.
  unfold cleaned_section.
  rewrite replace_char_length. etransitivity; [apply strip_length|].
  rewrite find_end_first_present, find_start_first_present.
  set (w := match _ <$> _ with Some a => a | None => take 3000 text end).
  assert (Hw : length w <= length text).
  { subst w. destruct (first_present start_keywords text); cbn.
    - apply after_first_length.
    - rewrite length_take. lia. }
  destruct (first_present end_keywords w); [|done].
  etransitivity; [apply before_first_length | done].
Qed.

End Isolator.

(** The length check of [_find_abstract], as one equation. *)
Lemma find_abstract_cases (text : str) :
  _find_abstract text =
    if length (cleaned_section text) <? 50
    then replace [LF] [SP] (take 2000 text)
    else cleaned_section text.
Proof. reflexivity. Qed.

(** C6: for every text, when the section cut out by the markers
    (stripped, newlines replaced by spaces) has fewer than 50
    characters, [_find_abstract] returns the first 2000 characters of
    the original text with newlines replaced by spaces. *)
Theorem find_abstract_short_fallback (text : str) :
  length (cleaned_section text) < 50 ->
  _find_abstract text = replace [LF] [SP] (take 2000 text).
Proof.
  intros H. rewrite find_abstract_cases.
  apply Nat.ltb_lt in H. rewrite H. reflexivity.
Qed.

Lemma find_abstract_short_fallback_witness :
  cleaned_section (lit "Abstract" ++ [LF] ++ lit "Keywords:") = [] /\
  _find_abstract (lit "Abstract" ++ [LF] ++ lit "Keywords:") =
    lit "Abstract Keywords:".
Proof.
  split; [reflexivity|].
  apply (find_abstract_short_fallback (lit "Abstract" ++ [LF] ++ lit "Keywords:")).
  vm_compute. lia.
Defined.

(** C10: the fallback is returned without a second length check: the
    empty text gives the empty string, and every text of fewer than 50
    characters is returned with its newlines replaced by spaces, an
    output of the same length, below 50. *)
Theorem find_abstract_fallback_not_revalidated :
  _find_abstract [] = [] /\
  forall text : str,
    length text < 50 ->
    _find_abstract text = replace [LF] [SP] text /\
    length (_find_abstract text) = length text.
Proof.
  split; [reflexivity|].
  intros text H.
  assert (E : _find_abstract text = replace [LF] [SP] text).
  { rewrite find_abstract_cases.
    pose proof (cleaned_section_length text) as Hc.
    assert (Hlt : (length (cleaned_section text) <? 50) = true)
      by (apply Nat.ltb_lt; lia).
    rewrite Hlt, take_ge by lia. reflexivity. }
  split; [exact E|]. rewrite E. apply replace_char_length.
Qed.

Lemma find_abstract_fallback_not_revalidated_witness :
  _find_abstract (lit "Too short") = lit "Too short" /\
  length (_find_abstract (lit "Too short")) = 9.
Proof.
  apply (proj2 find_abstract_fallback_not_revalidated (lit "Too short")).
  vm_compute. lia.
Defined.

(** C5 as stated, without a condition on the length, does not hold:
    in "Abstract\nKeywords:" nothing lies between the two markers, yet
    the isolator returns the whole text with the newline replaced. *)
Lemma find_abstract_between_markers_unguarded_fails :
  ~ (forall (text : str) (i j : nat),
       find (lit "Abstract") text = Some i ->
       find (lit "Keywords:") (drop (i + 8) text) = Some j ->
       _find_abstract text =
         replace [LF] [SP] (strip (take j (drop (i + 8) text)))).
Proof.
  intros H.
  specialize (H (lit "Abstract" ++ [LF] ++ lit "Keywords:") 0 1 eq_refl eq_refl).
  vm_compute in H. discriminate H.
Qed.

(** C5, amended: the markers that win are the first entries of the two
    fixed lists that occur at all (in the text, respectively in the
    text after the start marker), wherever later-listed markers occur;
    the section between them, stripped and with newlines replaced by
    spaces, is the output whenever it has at least 50 characters.  In
    particular, when "Abstract" occurs and "Keywords:" occurs after its
    first occurrence, the output is the text strictly between the
    first "Abstract" and the first following "Keywords:", stripped and
    with newlines replaced by spaces, provided that has at least 50
    characters. *)
Theorem find_abstract_list_order_priority (text : str) :
  (forall ks ke : str,
      first_present start_keywords text = Some ks ->
      first_present end_keywords (after_first ks text) = Some ke ->
      50 <= length (replace [LF] [SP] (strip (before_first ke (after_first ks text)))) ->
      _find_abstract text =
        replace [LF] [SP] (strip (before_first ke (after_first ks text)))) /\
  (forall i j : nat,
      find (lit "Abstract") text = Some i ->
      find (lit "Keywords:") (drop (i + 8) text) = Some j ->
      50 <= length (replace [LF] [SP] (strip (take j (drop (i + 8) text)))) ->
      _find_abstract text =
        replace [LF] [SP] (strip (take j (drop (i + 8) text)))).
Proof.
  assert (General : forall ks ke : str,
      first_present start_keywords text = Some ks ->
      first_present end_keywords (after_first ks text) = Some ke ->
      50 <= length (replace [LF] [SP] (strip (before_first ke (after_first ks text)))) ->
      _find_abstract text =
        replace [LF] [SP] (strip (before_first ke (after_first ks text)))).
  { intros ks ke Hks Hke Hlen.
    assert (E : cleaned_section text =
                replace [LF] [SP] (strip (before_first ke (after_first ks text)))).
    { unfold cleaned_section.
      rewrite find_start_first_present, Hks. cbn [fmap option_fmap option_map].
      rewrite find_end_first_present, Hke. reflexivity. }
    rewrite find_abstract_cases, E.
    apply Nat.ltb_ge in Hlen. rewrite Hlen. reflexivity. }
  split; [exact General|].
  intros i j Hi Hj Hlen.
  assert (Ha : after_first (lit "Abstract") text = drop (i + 8) text).
  { unfold after_first. rewrite Hi. reflexivity. }
  assert (Hb : before_first (lit "Keywords:") (drop (i + 8) text) =
               take j (drop (i + 8) text)).
  { unfold before_first. rewrite Hj. reflexivity. }
  rewrite <- Hb, <- Ha. apply General.
  - unfold first_present, start_keywords. cbn [List.find].
    rewrite (find_contains _ _ _ Hi). reflexivity.
  - rewrite Ha. unfold first_present, end_keywords. cbn [List.find].
    rewrite (find_contains _ _ _ Hj). reflexivity.
  - rewrite Ha, Hb. exact Hlen.
Qed.

(** In this text "Summary" comes before "Abstract" and "Contents" comes
    before "Keywords:"; the earlier list entries win all the same. *)
Lemma find_abstract_list_order_priority_witness :
  _find_abstract
    (lit "Summary of talks. Abstract" ++ [LF] ++
     lit "We list the Contents of a long report and explain every part of it. Keywords: none")
  = lit "We list the Contents of a long report and explain every part of it.".
Proof.
  exact (proj2 (find_abstract_list_order_priority
    (lit "Summary of talks. Abstract" ++ [LF] ++
     lit "We list the Contents of a long report and explain every part of it. Keywords: none"))
    18 69 eq_refl eq_refl ltac:(vm_compute; lia)).
Defined.

(** ** Whitespace at the ends of a string *)

Section Whitespace.
Implicit Types (s t a p W : list N) (c : N).

Lemma lstrip_no_leading_space t : no_leading_space t = true -> lstrip t = t.
Proof.
  destruct t as [|c t]; cbn; [done|].
  destruct (is_space c); [discriminate | done].
Qed.

Lemma no_leading_space_lstrip s : no_leading_space (lstrip s) = true.
Proof.
  induction s as [|c s IH]; cbn; [done|].
  destruct (is_space c) eqn:E; [exact IH|]. cbn. by rewrite E.
Qed.

Lemma no_leading_space_take i t :
  no_leading_space t = true -> no_leading_space (take i t) = true.
Proof. destruct t as [|c t], i as [|i]; cbn; done. Qed.

(** [lstrip] removes a run of whitespace from the front. *)
Lemma lstrip_split s : exists W, s = W ++ lstrip s /\ Forall (fun c => is_space c = true) W.
Proof.
  induction s as [|c s (W & E & HW)]; cbn.
  - exists []. split; [done | constructor].
  - destruct (is_space c) eqn:Ec.
    + exists (c :: W). split; [cbn [app]; by rewrite <- E | by constructor].
    + exists []. split; [done | constructor].
Qed.

(** [rstrip] removes a run of whitespace from the back. *)
Lemma rstrip_split t : exists W, t = rstrip t ++ W /\ Forall (fun c => is_space c = true) W.
Proof.
  destruct (lstrip_split (rev t)) as (W & E & HW).
  exists (rev W). split.
  - unfold rstrip. rewrite <- rev_app_distr, <- E. by rewrite rev_involutive.
  - by apply Forall_rev.
Qed.

Lemma rstrip_take t : rstrip t = take (length (rstrip t)) t.
Proof.
  destruct (rstrip_split t) as (W & E & _).
  rewrite E at 3. by rewrite take_app_length.
Qed.

Lemma lstrip_idemp s : lstrip (lstrip s) = lstrip s.
Proof. apply lstrip_no_leading_space, no_leading_space_lstrip. Qed.

Lemma rstrip_idemp t : rstrip (rstrip t) = rstrip t.
Proof. unfold rstrip. by rewrite rev_involutive, lstrip_idemp. Qed.

Lemma strip_no_leading_space t : no_leading_space t = true -> strip t = rstrip t.
Proof. intros H. unfold strip. by rewrite lstrip_no_leading_space. Qed.

Lemma no_leading_space_strip s : no_leading_space (strip s) = true.
Proof.
  unfold strip. rewrite rstrip_take.
  apply no_leading_space_take, no_leading_space_lstrip.
Qed.

Lemma rstrip_strip s : rstrip (strip s) = strip s.
Proof. unfold strip. apply rstrip_idemp. Qed.

(** A phrase that ends in a visible character cannot reach into
    trailing whitespace. *)
Lemma starts_with_app_spaces p a W :
  ends_nonspace p = true -> Forall (fun c => is_space c = true) W ->
  starts_with p (a ++ W) = starts_with p a.
Proof.
  revert a W.
  induction p as [|c p IH]; intros a W Hp HW; [discriminate|].
  destruct p as [|c' p].
  - destruct a as [|x a]; cbn; [|done].
    destruct HW as [|w W Hw HW]; cbn; [done|].
    cbn in Hp. destruct (N.eqb_spec c w) as [->|]; [|done].
    by rewrite Hw in Hp.
  - change (ends_nonspace (c :: c' :: p)) with (ends_nonspace (c' :: p)) in Hp.
    destruct a as [|x a].
    + destruct HW as [|w W Hw HW]; [done|].
      change (starts_with (c :: c' :: p) ([] ++ w :: W))
        with ((c =? w)%N && starts_with (c' :: p) ([] ++ W)).
      rewrite (IH [] W Hp HW). cbn. apply andb_false_r.
    + change (starts_with (c :: c' :: p) ((x :: a) ++ W))
        with ((c =? x)%N && starts_with (c' :: p) (a ++ W)).
      by rewrite (IH a W Hp HW).
Qed.

Lemma find_app_spaces p a W :
  ends_nonspace p = true -> Forall (fun c => is_space c = true) W -> find p (a ++ W) = find p a.
Proof.
  intros Hp HW.
  assert (HnilW : forall W', Forall (fun c => is_space c = true) W' -> find p W' = None).
  { induction 1 as [|w W' Hw HW' IH].
    - cbn. by destruct p.
    - cbn [find].
      pose proof (starts_with_app_spaces p [] (w :: W') Hp
                    ltac:(by constructor)) as Hs.
      cbn [app] in Hs. rewrite Hs, IH.
      destruct p; [discriminate | done]. }
  induction a as [|x a IH].
  - cbn [app]. rewrite (HnilW W HW). cbn. by destruct p.
  - change ((x :: a) ++ W) with (x :: (a ++ W)). cbn [find].
    change (x :: (a ++ W)) with ((x :: a) ++ W).
    by rewrite (starts_with_app_spaces p (x :: a) W Hp HW), IH.
Qed.

(** Trailing whitespace adds no word. *)
Lemma words_from_spaces cur W :
  Forall (fun c => is_space c = true) W ->
  words_from cur W = match cur with [] => [] | _ :: _ => [rev cur] end.
Proof.
  intros HW. revert cur.
  induction HW as [|w W Hw HW IH]; intros cur; cbn [words_from]; [done|].
  rewrite Hw, (IH []). by destruct cur.
Qed.

Lemma words_from_app_spaces cur a W :
  Forall (fun c => is_space c = true) W -> words_from cur (a ++ W) = words_from cur a.
Proof.
  intros HW. revert cur.
  induction a as [|x a IH]; intros cur.
  - cbn [app]. by rewrite words_from_spaces.
  - cbn [app words_from]. by rewrite !IH.
Qed.

Lemma words_rstrip t : words (rstrip t) = words t.
Proof.
  destruct (rstrip_split t) as (W & E & HW).
  unfold words. rewrite E at 2. by rewrite words_from_app_spaces.
Qed.

End Whitespace.

(** ** The stop-phrase loop of the sanitizer *)

Section StopPhrases.
Implicit Types (s t : list N) (phrases : list (list N)).

(** One iteration of the loop against one truncation of the
    specification: the loop's text stays the right-stripped form of the
    specification's text. *)
Lemma stop_phrase_step (p s t : list N) :
  ends_nonspace p = true ->
  s = rstrip t -> no_leading_space t = true ->
  (if contains p s then strip (item (split p s) 0) else s)
    = rstrip (before_first p t) /\
  no_leading_space (before_first p t) = true.
Proof.
  intros Hp -> Ht.
  destruct (rstrip_split t) as (W & E & HW).
  assert (Hf : find p t = find p (rstrip t)).
  { rewrite E at 1. by apply find_app_spaces. }
  unfold before_first, contains. rewrite Hf.
  destruct (find p (rstrip t)) as [i|] eqn:Hi; [|done].
  assert (Htake : take i t = take i (rstrip t)).
  { apply find_bound in Hi. rewrite E at 1. apply take_app_le. lia. }
  split.
  - rewrite (split_head_found _ _ _ Hi), <- Htake.
    apply strip_no_leading_space. by apply no_leading_space_take.
  - by apply no_leading_space_take.
Qed.

Lemma remove_stop_phrases_truncates phrases s t :
  Forall (fun p => ends_nonspace p = true) phrases ->
  s = rstrip t -> no_leading_space t = true ->
  remove_stop_phrases phrases s = rstrip (truncate_in_order phrases t).
Proof.
  intros Hps. revert s t.
  induction Hps as [|p phrases Hp Hps IH]; intros s t Hs Ht; [done|].
  cbn [remove_stop_phrases]. unfold truncate_in_order. cbn [fold_left].
  destruct (stop_phrase_step p s t Hp Hs Ht) as [Hs' Ht'].
  by apply IH.
Qed.

Lemma stop_phrases_end_nonspace :
  Forall (fun p => ends_nonspace p = true) stop_phrases.
Proof. unfold stop_phrases. repeat constructor. Qed.

End StopPhrases.

(** C7: the sanitizer's loop goes through [stop_phrases] in list order
    and its result is what the specification describes: each phrase
    that occurs cuts the current text down to everything before its
    first occurrence, later phrases working on the text already cut;
    the whitespace the code strips after each cut does not survive the
    whitespace collapse that follows the loop.  In particular
    "Summary: Paper shows X. Figure 1 shows Y." sanitizes to
    "Paper shows X.", whatever the prompt. *)
Theorem sanitize_truncates_in_list_order :
  (forall full_output prompt : str,
      sanitize full_output prompt =
        limit_length
          (join [SP]
             (words (truncate_in_order stop_phrases
                       (summary_part full_output prompt))))) /\
  (forall prompt : str,
      sanitize (lit "Summary: Paper shows X. Figure 1 shows Y.") prompt =
        lit "Paper shows X.").
Proof.
  split; [|intros prompt; reflexivity].
  intros full_output prompt. unfold sanitize. cbn zeta.
  rewrite (remove_stop_phrases_truncates stop_phrases
             (summary_part full_output prompt) (summary_part full_output prompt)).
  - by rewrite words_rstrip.
  - apply stop_phrases_end_nonspace.
  - unfold summary_part.
    destruct (contains (lit "Summary:") full_output); by rewrite rstrip_strip.
  - unfold summary_part.
    destruct (contains (lit "Summary:") full_output); apply no_leading_space_strip.
Qed.

(** * Further properties of the code *)

(** ** Occurrences *)

Section Occurrences.
Implicit Types (s t a b p x y : list N) (c : N).

Lemma starts_with_app p b : starts_with p (p ++ b) = true.
Proof. induction p as [|c p IH]; cbn; [done|]. by rewrite N.eqb_refl. Qed.

Lemma starts_with_inv p s : starts_with p s = true -> exists b, s = p ++ b.
Proof.
  revert s. induction p as [|c p IH]; intros s H; [by exists s|].
  destruct s as [|d s]; [discriminate|]. cbn in H.
  apply andb_true_iff in H as [Hc H]. apply N.eqb_eq in Hc as ->.
  destruct (IH s H) as [b ->]. by exists b.
Qed.

(** [find] returns the position of an occurrence... *)
Lemma find_occurrence p s i :
  find p s = Some i -> s = take i s ++ p ++ drop (i + length p) s.
Proof.
  revert i. induction s as [|d s IH]; intros i; cbn [find].
  - destruct (starts_with p []) eqn:E; [|discriminate]. intros [= <-].
    destruct p; [done | discriminate].
  - destruct (starts_with p (d :: s)) eqn:E.
    + intros [= <-]. apply starts_with_inv in E as [b E].
      rewrite E at 1. cbn [take app Nat.add]. f_equal.
      rewrite E. by rewrite drop_app_length.
    + destruct (find p s) as [j|]; [|discriminate]. intros [= <-].
      cbn [take drop app Nat.add]. f_equal. by apply IH.
Qed.

(** ... and no occurrence starts before it. *)
Lemma find_leftmost p s i a b :
  find p s = Some i -> s = a ++ p ++ b -> i <= length a.
Proof.
  revert s i. induction a as [|d a IH]; intros s i Hf ->.
  - cbn [app] in Hf. destruct (p ++ b) as [|e r] eqn:E; cbn [find] in Hf.
    + destruct p; [|discriminate]. cbn in Hf. injection Hf as <-. done.
    + rewrite <- E, starts_with_app in Hf. injection Hf as <-. cbn. lia.
  - cbn [app find] in Hf.
    destruct (starts_with p (d :: a ++ p ++ b)); [injection Hf as <-; cbn; lia|].
    destruct (find p (a ++ p ++ b)) as [j|] eqn:Hj; [|discriminate].
    injection Hf as <-. specialize (IH _ _ Hj eq_refl). cbn. lia.
Qed.

Lemma occurs_find p s : occurs p s -> exists i, find p s = Some i.
Proof.
  intros (a & b & ->). induction a as [|d a [i IH]]; cbn [app].
  - destruct (p ++ b) as [|e r] eqn:E; cbn [find].
    + destruct p; [|discriminate]. eauto.
    + rewrite <- E, starts_with_app. eauto.
  - cbn [find]. destruct (starts_with p _); [eauto|]. rewrite IH. cbn. eauto.
Qed.

(** The test [p in s] is true exactly when [p] occurs in [s]. *)
Lemma contains_occurs p s : contains p s = true <-> occurs p s.
Proof.
  split.
  - intros H. apply contains_find in H as [i Hi].
    apply find_occurrence in Hi. by eexists _, _.
  - intros H. apply contains_find. by apply occurs_find.
Qed.

Lemma not_contains_occurs p s : contains p s = false <-> ~ occurs p s.
Proof.
  rewrite <- contains_occurs. destruct (contains p s); split; done.
Qed.

Lemma occurs_trans p s t : occurs p s -> occurs s t -> occurs p t.
Proof.
  intros (a & b & ->) (a' & b' & ->). exists (a' ++ a), (b ++ b').
  by rewrite <- !app_assoc.
Qed.

Lemma occurs_refl s : occurs s s.
Proof. exists [], []. by rewrite app_nil_r. Qed.

Lemma occurs_take n s : occurs (take n s) s.
Proof. exists [], (drop n s). cbn. by rewrite take_drop. Qed.

Lemma occurs_drop n s : occurs (drop n s) s.
Proof. exists (take n s), []. by rewrite app_nil_r, take_drop. Qed.

Lemma occurs_nil_inv p : occurs p [] -> p = [].
Proof.
  intros (a & b & E). symmetry in E.
  apply app_eq_nil in E as [_ E]. by apply app_eq_nil in E as [E _].
Qed.

Lemma occurs_elem c p s : c ∈ p -> occurs p s -> c ∈ s.
Proof. intros Hc (a & b & ->). rewrite !elem_of_app. auto. Qed.

(** What lies before the first occurrence holds no occurrence. *)
Lemma find_take_no_occurrence p s i :
  p <> [] -> find p s = Some i -> ~ occurs p (take i s).
Proof.
  intros Hp Hi (a & b & E).
  assert (Hlen : length (take i s) = length a + length p + length b)
    by (rewrite E, !length_app; lia).
  assert (Hs : s = a ++ p ++ (b ++ drop i s)).
  { rewrite <- (take_drop i s) at 1. rewrite E. by rewrite <- !app_assoc. }
  pose proof (find_leftmost _ _ _ _ _ Hi Hs) as Hmin.
  rewrite length_take in Hlen.
  destruct p; [done|]. cbn [length] in Hlen. lia.
Qed.

(** An occurrence in [x ++ c :: y] of a block without [c] lies in [x]
    or in [y]. *)
Lemma occurs_app_cons p x c y :
  c ∉ p -> occurs p (x ++ c :: y) -> occurs p x \/ occurs p y.
Proof.
  intros Hc (a & b & E). symmetry in E.
  apply app_eq_app in E as [l [[-> E]|[-> E]]].
  - (* the occurrence starts at or after the end of [x] *)
    destruct l as [|d l]; cbn [app] in E.
    + destruct p as [|e p]; [left; exists x, []; by rewrite app_nil_r|].
      injection E as -> _. exfalso. apply Hc. by left.
    + injection E as -> ->. right. by exists l, b.
  - (* the occurrence starts inside [x] *)
    apply app_eq_app in E as [l' [[-> E]|[-> E]]].
    + destruct l' as [|d l']; cbn [app] in E.
      * left. exists a, []. by rewrite !app_nil_r.
      * exfalso. apply Hc. rewrite elem_of_app. right.
        injection E as -> _. by left.
    + left. by exists a, l'.
Qed.

End Occurrences.

(** ** Words and single spaces *)

Section Words.
Implicit Types (s t w x y p cur : list N) (ws : list (list N)) (c : N).

Lemma words_from_run cur x s :
  Forall (fun c => is_space c = false) x ->
  words_from cur (x ++ s) = words_from (rev x ++ cur) s.
Proof.
  intros Hx. revert cur.
  induction Hx as [|c x Hc Hx IH]; intros cur; [done|].
  cbn [app words_from]. rewrite Hc, IH. cbn [rev]. by rewrite <- app_assoc.
Qed.

(** [split()] returns words. *)
Lemma words_from_is_word cur s :
  Forall (fun c => is_space c = false) cur ->
  Forall is_word (words_from cur s).
Proof.
  assert (Hrev : forall cur' c,
            Forall (fun c => is_space c = false) (c :: cur') ->
            is_word (rev (c :: cur'))).
  { intros cur' c H. split.
    - cbn [rev]. by destruct (rev cur').
    - by apply Forall_rev. }
  revert cur. induction s as [|c s IH]; intros cur Hcur; cbn [words_from].
  - destruct cur; [constructor|]. constructor; [by apply Hrev | constructor].
  - destruct (is_space c) eqn:Ec.
    + destruct cur; [by apply IH|].
      constructor; [by apply Hrev | by apply IH].
    + apply IH. by constructor.
Qed.

Lemma words_is_word s : Forall is_word (words s).
Proof. by apply words_from_is_word. Qed.

(** Joining words with single spaces and splitting again gives the
    words back. *)
Lemma words_join ws : Forall is_word ws -> words (join [SP] ws) = ws.
Proof.
  unfold words. induction 1 as [|w ws [Hne Hw] Hws IH]; [done|].
  destruct ws as [|w' ws].
  - cbn [join]. rewrite <- (app_nil_r w) at 1. rewrite words_from_run by done.
    cbn [words_from]. rewrite app_nil_r.
    destruct (rev w) eqn:E; [|by rewrite <- E, rev_involutive].
    apply (f_equal (@rev N)) in E. rewrite rev_involutive in E. done.
  - change (join [SP] (w :: w' :: ws)) with (w ++ [SP] ++ join [SP] (w' :: ws)).
    rewrite words_from_run by done. cbn [app words_from]. rewrite app_nil_r.
    change (is_space SP) with true. cbv iota.
    destruct (rev w) eqn:E.
    + apply (f_equal (@rev N)) in E. rewrite rev_involutive in E. done.
    + rewrite <- E, rev_involutive. by rewrite IH.
Qed.

(** Every word of a string occurs in it. *)
Lemma words_from_occurs cur s w :
  w ∈ words_from cur s -> occurs w (rev cur ++ s).
Proof.
  revert cur. induction s as [|c s IH]; intros cur; cbn [words_from].
  - destruct cur as [|d cur]; [by intros ?%elem_of_nil|].
    intros ->%list_elem_of_singleton. rewrite app_nil_r. apply occurs_refl.
  - destruct (is_space c).
    + destruct cur as [|d cur].
      * intros H%IH. cbn [rev app] in *.
        eapply occurs_trans; [exact H|]. apply (occurs_drop 1 (c :: s)).
      * intros [->|H%IH]%elem_of_cons.
        -- exists [], (c :: s). done.
        -- cbn [rev app] in H. eapply occurs_trans; [exact H|].
           exists (rev (d :: cur) ++ [c]), []. by rewrite app_nil_r, <- app_assoc.
    + intros H%IH. cbn [rev] in H. by rewrite <- app_assoc in H.
Qed.

Lemma words_occurs s w : w ∈ words s -> occurs w s.
Proof. apply (words_from_occurs [] s w). Qed.

(** A string without words is all whitespace. *)
Lemma words_from_nil cur s :
  words_from cur s = [] -> cur = [] /\ Forall (fun c => is_space c = true) s.
Proof.
  revert cur. induction s as [|c s IH]; intros cur; cbn [words_from].
  - by destruct cur.
  - destruct (is_space c) eqn:Ec.
    + destruct cur; [|done]. intros [_ H]%IH. split; [done | by constructor].
    + by intros [? _]%IH.
Qed.

Lemma words_nil_spaces s :
  words s = [] <-> Forall (fun c => is_space c = true) s.
Proof.
  split.
  - by intros [_ H]%words_from_nil.
  - intros H. unfold words. by rewrite words_from_spaces.
Qed.

(** The characters of a space-joined list are the spaces and the
    characters of the pieces. *)
Lemma join_elem c ws :
  c ∈ join [SP] ws -> c = SP \/ exists w, w ∈ ws /\ c ∈ w.
Proof.
  induction ws as [|w ws IH]; [by intros ?%elem_of_nil|].
  destruct ws as [|w' ws].
  - cbn [join]. intros H. right. exists w. split; [by left | done].
  - change (join [SP] (w :: w' :: ws)) with (w ++ [SP] ++ join [SP] (w' :: ws)).
    rewrite !elem_of_app. intros [H|[H|H]].
    + right. exists w. split; [by left | done].
    + left. by apply list_elem_of_singleton in H.
    + destruct (IH H) as [?|(v & Hv & Hc)]; [by left|].
      right. exists v. split; [by right | done].
Qed.

(** A block without a space that occurs in a space-joined list occurs
    in one of the pieces. *)
Lemma occurs_join p ws :
  p <> [] -> SP ∉ p -> occurs p (join [SP] ws) ->
  exists w, w ∈ ws /\ occurs p w.
Proof.
  intros Hp Hsp. induction ws as [|w ws IH].
  - by intros ?%occurs_nil_inv.
  - destruct ws as [|w' ws].
    + cbn [join]. intros H. exists w. split; [by left | done].
    + change (join [SP] (w :: w' :: ws)) with (w ++ SP :: join [SP] (w' :: ws)).
      intros [H|H]%occurs_app_cons; [| |done].
      * exists w. split; [by left | done].
      * destruct (IH H) as (v & Hv & Ho). exists v. split; [by right | done].
Qed.

Lemma no_leading_space_join ws :
  Forall is_word ws -> no_leading_space (join [SP] ws) = true.
Proof.
  intros H. destruct H as [|w ws [Hne Hw] Hws]; [done|].
  assert (H : no_leading_space w = true).
  { destruct Hw as [|c w Hc _]; [done|]. cbn. by rewrite Hc. }
  destruct ws as [|w' ws]; [done|].
  change (join [SP] (w :: w' :: ws)) with (w ++ SP :: join [SP] (w' :: ws)).
  destruct w; done.
Qed.

Lemma single_spaced_word_then x y :
  Forall (fun c => is_space c = false) x ->
  single_spaced y = true ->
  single_spaced (x ++ y) = true.
Proof.
  intros Hx Hy. induction Hx as [|c x Hc Hx IH]; [done|].
  cbn [app]. destruct (x ++ y) as [|d r] eqn:E; [done|].
  change (single_spaced (c :: d :: r))
    with (negb (is_space c && is_space d) && single_spaced (d :: r)).
  by rewrite Hc, IH.
Qed.

Lemma single_spaced_join ws :
  Forall is_word ws -> single_spaced (join [SP] ws) = true.
Proof.
  induction 1 as [|w ws [Hne Hw] Hws IH]; [done|].
  destruct ws as [|w' ws].
  - cbn [join]. rewrite <- (app_nil_r w). by apply single_spaced_word_then.
  - change (join [SP] (w :: w' :: ws)) with (w ++ SP :: join [SP] (w' :: ws)).
    apply single_spaced_word_then; [done|].
    pose proof (no_leading_space_join (w' :: ws) Hws) as Hl.
    destruct (join [SP] (w' :: ws)) as [|d r] eqn:E; [done|].
    change (single_spaced (SP :: d :: r))
      with (negb (is_space SP && is_space d) && single_spaced (d :: r)).
    cbn in Hl. apply negb_true_iff in Hl. rewrite Hl, IH. done.
Qed.

Lemma single_spaced_take n s :
  single_spaced s = true -> single_spaced (take n s) = true.
Proof.
  revert n. induction s as [|a s IH]; intros n H; [by destruct n|].
  destruct n as [|n]; [done|]. cbn [take].
  destruct s as [|b s]; [by destruct n|].
  change (single_spaced (a :: b :: s))
    with (negb (is_space a && is_space b) && single_spaced (b :: s)) in H.
  apply andb_true_iff in H as [H1 H2].
  specialize (IH n H2). destruct n as [|n]; [done|].
  cbn [take] in *.
  change (single_spaced (a :: b :: take n s))
    with (negb (is_space a && is_space b) && single_spaced (b :: take n s)).
  by rewrite H1, IH.
Qed.

(** What [single_spaced] says, position by position. *)
Lemma single_spaced_lookup s i a b :
  single_spaced s = true ->
  s !! i = Some a -> s !! S i = Some b ->
  is_space a = true -> is_space b = false.
Proof.
  revert i. induction s as [|x s IH]; intros i H Ha Hb Hsa; [done|].
  destruct s as [|z s]; [done|].
  change (single_spaced (x :: z :: s))
    with (negb (is_space x && is_space z) && single_spaced (z :: s)) in H.
  apply andb_true_iff in H as [H1 H2].
  destruct i as [|i].
  - cbn in Ha, Hb. injection Ha as ->. injection Hb as ->.
    rewrite Hsa in H1. by destruct (is_space b).
  - by apply (IH i).
Qed.

End Words.

(** ** What the sanitizer's output looks like *)

Section SanitizerOutput.
Implicit Types (s t p : list N) (phrases : list (list N)).

Lemma occurs_lstrip s : occurs (lstrip s) s.
Proof. destruct (lstrip_split s) as (W & E & _). exists W, []. by rewrite app_nil_r. Qed.

Lemma occurs_rstrip s : occurs (rstrip s) s.
Proof. rewrite rstrip_take. apply occurs_take. Qed.

Lemma occurs_strip s : occurs (strip s) s.
Proof. eapply occurs_trans; [apply occurs_rstrip | apply occurs_lstrip]. Qed.

Lemma occurs_limit_length s : occurs (limit_length s) s.
Proof.
  unfold limit_length. destruct (800 <? length s); [apply occurs_take | apply occurs_refl].
Qed.

(** One iteration of the stop-phrase loop only removes text, and
    leaves no occurrence of its phrase. *)
Lemma stop_step_occurs p s :
  occurs (if contains p s then strip (item (split p s) 0) else s) s.
Proof.
  destruct (contains p s) eqn:E; [|apply occurs_refl].
  apply contains_find in E as [i Hi]. rewrite (split_head_found _ _ _ Hi).
  eapply occurs_trans; [apply occurs_strip | apply occurs_take].
Qed.

Lemma stop_step_clean p s :
  p <> [] ->
  ~ occurs p (if contains p s then strip (item (split p s) 0) else s).
Proof.
  intros Hp. destruct (contains p s) eqn:E; [|by apply not_contains_occurs].
  apply contains_find in E as [i Hi]. rewrite (split_head_found _ _ _ Hi).
  intros H. apply (find_take_no_occurrence p s i Hp Hi).
  eapply occurs_trans; [exact H | apply occurs_strip].
Qed.

Lemma remove_stop_phrases_occurs phrases s :
  occurs (remove_stop_phrases phrases s) s.
Proof.
  revert s. induction phrases as [|p phrases IH]; intros s; [apply occurs_refl|].
  cbn [remove_stop_phrases].
  eapply occurs_trans; [apply IH | apply stop_step_occurs].
Qed.

Lemma remove_stop_phrases_clean phrases s p :
  p ∈ phrases -> p <> [] -> ~ occurs p (remove_stop_phrases phrases s).
Proof.
  intros Hin Hp. revert s.
  induction Hin as [p phrases|p q phrases Hin IH]; intros s; cbn [remove_stop_phrases].
  - intros H. apply (stop_step_clean p s Hp).
    eapply occurs_trans; [exact H | apply remove_stop_phrases_occurs].
  - by apply IH.
Qed.

(** A phrase of the list cannot occur in the collapsed and clipped
    text when it has no plain space in it, or has a whitespace
    character that is not a plain space. *)
Lemma collapsed_no_phrase phrases s p :
  p ∈ phrases -> p <> [] ->
  SP ∉ p \/ (exists c, c ∈ p /\ is_space c = true /\ c <> SP) ->
  ~ occurs p (limit_length (join [SP] (words (remove_stop_phrases phrases s)))).
Proof.
  intros Hin Hp Hsp H.
  assert (H' : occurs p (join [SP] (words (remove_stop_phrases phrases s))))
    by (eapply occurs_trans; [exact H | apply occurs_limit_length]).
  clear H. destruct Hsp as [Hsp|(c & Hc & Hs & Hne)].
  - destruct (occurs_join p _ Hp Hsp H') as (w & Hw & Ho).
    apply (remove_stop_phrases_clean phrases s p Hin Hp).
    eapply occurs_trans; [exact Ho | by apply words_occurs].
  - destruct (join_elem c _ (occurs_elem c p _ Hc H')) as [?|(w & Hw & Hcw)]; [done|].
    pose proof (words_is_word (remove_stop_phrases phrases s)) as Hws.
    rewrite Forall_forall in Hws. destruct (Hws w Hw) as [_ Hall].
    rewrite Forall_forall in Hall. specialize (Hall c Hcw). congruence.
Qed.

End SanitizerOutput.

(** Every stop phrase is non-empty and either has no plain space or
    (the markdown header preceded by two newlines) has a newline. *)
Lemma stop_phrases_shape :
  Forall (fun p => p <> [] /\
                   (SP ∉ p \/ exists c, c ∈ p /\ is_space c = true /\ c <> SP))
    stop_phrases.
Proof.
  unfold stop_phrases.
  repeat (constructor;
          [split;
           [discriminate
           |first [left; apply (bool_decide_unpack _); vm_compute; exact I
                  |right; exists LF; split; [by left | by split]]]|]).
  constructor.
Qed.

(** X7: no stop phrase survives: whatever the decoded output and the
    prompt, none of the nineteen phrases of [stop_phrases] occurs in
    the sanitized summary. *)
Theorem sanitize_has_no_stop_phrase (full_output prompt : str) :
  Forall (fun phrase => contains phrase (sanitize full_output prompt) = false)
    stop_phrases.
Proof.
  apply Forall_forall. intros p Hp. apply not_contains_occurs.
  pose proof stop_phrases_shape as Hshape. rewrite Forall_forall in Hshape.
  destruct (Hshape p Hp) as [Hne Hsp].
  unfold sanitize. cbn zeta. by apply collapsed_no_phrase.
Qed.

(** X8: the sanitized summary is in whitespace normal form: its only
    whitespace characters are plain spaces (no newline, no tab), it
    does not begin with one, and no two of them are adjacent. *)
Theorem sanitize_whitespace_normal (full_output prompt : str) :
  Forall (fun c => is_space c = false \/ c = SP) (sanitize full_output prompt) /\
  no_leading_space (sanitize full_output prompt) = true /\
  single_spaced (sanitize full_output prompt) = true.
Proof.
  unfold sanitize. cbn zeta.
  set (r := remove_stop_phrases stop_phrases (summary_part full_output prompt)).
  pose proof (words_is_word r) as Hws.
  assert (Hchars : Forall (fun c => is_space c = false \/ c = SP) (join [SP] (words r))).
  { apply Forall_forall. intros c Hc.
    destruct (join_elem c _ Hc) as [->|(w & Hw & Hcw)]; [by right|]. left.
    rewrite Forall_forall in Hws. destruct (Hws w Hw) as [_ Hall].
    rewrite Forall_forall in Hall. by apply Hall. }
  unfold limit_length. destruct (800 <? length (join [SP] (words r))).
  - split; [by apply Forall_take|]. split.
    + by apply no_leading_space_take, no_leading_space_join.
    + by apply single_spaced_take, single_spaced_join.
  - split; [done|]. split.
    + by apply no_leading_space_join.
    + by apply single_spaced_join.
Qed.

(** ** The summary part of the decoded output *)

Section SummaryPart.
Implicit Types (s t a b p x y text gen : list N) (c : N).

Lemma replace_not_found old new s :
  old <> [] -> find old s = None -> replace old new s = s.
Proof.
  intros Hold Hf. destruct old as [|c old]; [done|].
  unfold replace. rewrite replace_n_unfold by done. by rewrite Hf.
Qed.

(** An occurrence of a block without [c] in [x ++ c :: y] ends before
    that [c] or starts after it. *)
Lemma occurrence_beside a p b x c y :
  a ++ p ++ b = x ++ c :: y -> c ∉ p ->
  occurs p x \/ length x < length a.
Proof.
  intros E Hc.
  apply app_eq_app in E as [l [[-> E]|[-> E]]].
  - destruct l as [|d l]; cbn [app] in E.
    + destruct p as [|e p]; [left; exists x, []; by rewrite app_nil_r|].
      injection E as -> _. exfalso. apply Hc. by left.
    + right. rewrite length_app. cbn. lia.
  - apply app_eq_app in E as [l' [[-> E]|[-> E]]].
    + destruct l' as [|d l']; cbn [app] in E.
      * left. exists a, []. by rewrite !app_nil_r.
      * exfalso. apply Hc. rewrite elem_of_app. right.
        injection E as -> _. by left.
    + left. by exists a, l'.
Qed.

(** The first occurrence of [p] in [x ++ c :: p ++ y] is the one
    written there, when [p] has no [c] and does not occur in [x]. *)
Lemma find_after_separator p x c y :
  c ∉ p -> ~ occurs p x ->
  find p (x ++ c :: p ++ y) = Some (S (length x)).
Proof.
  intros Hc Hx.
  assert (Ho : occurs p (x ++ c :: p ++ y)).
  { exists (x ++ [c]), y. by rewrite <- app_assoc. }
  destruct (occurs_find _ _ Ho) as [i Hi]. rewrite Hi. f_equal.
  assert (Hle : i <= S (length x)).
  { rewrite (find_leftmost p _ i (x ++ [c]) y Hi).
    - rewrite length_app. cbn. lia.
    - by rewrite <- app_assoc. }
  pose proof (find_occurrence _ _ _ Hi) as E. symmetry in E.
  destruct (occurrence_beside _ _ _ _ _ _ E Hc) as [?|Hlt]; [done|].
  pose proof (find_bound _ _ _ Hi) as Hb.
  rewrite length_take in Hlt. lia.
Qed.

Lemma build_prompt_nonempty text : build_prompt text <> [].
Proof. unfold build_prompt. discriminate. Qed.

Lemma build_prompt_has_marker text : occurs (lit "Summary:") (build_prompt text).
Proof.
  unfold build_prompt. eexists _, []. rewrite app_nil_r.
  rewrite !app_assoc. reflexivity.
Qed.

End SummaryPart.

(** X9: the prompt-removal fallback of [summarize] removes nothing: the
    prompt ends in "Summary:", so an output without "Summary:" cannot
    contain the prompt, and the summary part is the stripped output
    itself. *)
Theorem summary_part_fallback_is_strip (text full_output : str) :
  contains (lit "Summary:") full_output = false ->
  summary_part full_output (build_prompt text) = strip full_output.
Proof.
  intros Hc. unfold summary_part. rewrite Hc. f_equal.
  apply replace_not_found; [apply build_prompt_nonempty|].
  destruct (find (build_prompt text) full_output) as [i|] eqn:E; [|done].
  exfalso. apply not_contains_occurs in Hc. apply Hc.
  eapply occurs_trans; [apply build_prompt_has_marker|].
  apply contains_occurs. by eapply find_contains.
Qed.

Lemma summary_part_fallback_is_strip_witness :
  summary_part (lit "  The paper studies chunking. ") (build_prompt (lit "Chunking."))
  = lit "The paper studies chunking.".
Proof.
  exact (summary_part_fallback_is_strip (lit "Chunking.")
           (lit "  The paper studies chunking. ") eq_refl).
Defined.

(** X10: when the model echoes the prompt and then writes its text, and
    the first 2000 characters of the abstract do not contain
    "Summary:", the summary part is exactly the stripped text written
    after the prompt. *)
Theorem summary_part_of_echo (text gen : str) :
  contains (lit "Summary:") (take 2000 text) = false ->
  summary_part (build_prompt text ++ gen) (build_prompt text) = strip gen.
Proof.
  intros Hc. apply not_contains_occurs in Hc.
  set (head := lit "You are an academic paper summarizer. Provide a concise, single-paragraph summary of the following abstract.").
  set (pre := head ++ LF :: LF :: lit "Abstract:" ++ LF :: take 2000 text ++ [LF]).
  assert (Eshape : build_prompt text ++ gen = pre ++ LF :: lit "Summary:" ++ gen).
  { unfold build_prompt, pre. fold head.
    repeat (rewrite <- ?app_assoc; cbn [app]). reflexivity. }
  assert (Hpre : ~ occurs (lit "Summary:") pre).
  { unfold pre.
    intros [H|H]%occurs_app_cons; [| |apply (bool_decide_unpack _); vm_compute; exact I].
    { revert H. apply not_contains_occurs. reflexivity. }
    change (LF :: lit "Abstract:" ++ LF :: take 2000 text ++ [LF])
      with ([] ++ LF :: lit "Abstract:" ++ LF :: take 2000 text ++ [LF]) in H.
    apply occurs_app_cons in H as [H|H]; [| |apply (bool_decide_unpack _); vm_compute; exact I].
    { by apply occurs_nil_inv in H. }
    apply occurs_app_cons in H as [H|H]; [| |apply (bool_decide_unpack _); vm_compute; exact I].
    { revert H. apply not_contains_occurs. reflexivity. }
    apply occurs_app_cons in H as [H|H]; [done| |apply (bool_decide_unpack _); vm_compute; exact I].
    by apply occurs_nil_inv in H. }
  assert (Hf : find (lit "Summary:") (build_prompt text ++ gen) = Some (S (length pre))).
  { rewrite Eshape. apply find_after_separator; [apply (bool_decide_unpack _); vm_compute; exact I | done]. }
  unfold summary_part. rewrite (find_contains _ _ _ Hf), (split_n_1_found _ _ _ Hf).
  cbn [List.last]. f_equal. rewrite Eshape.
  change (pre ++ LF :: lit "Summary:" ++ gen)
    with (pre ++ (LF :: lit "Summary:") ++ gen).
  rewrite app_assoc.
  rewrite drop_app_length'; [done|]. rewrite length_app. cbn. lia.
Qed.

Lemma summary_part_of_echo_witness :
  summary_part (build_prompt (lit "We study chunking.") ++ lit " It splits text.")
    (build_prompt (lit "We study chunking."))
  = lit "It splits text.".
Proof.
  exact (summary_part_of_echo (lit "We study chunking.") (lit " It splits text.") eq_refl).
Defined.


(** ** More on the section isolator *)

Section IsolatorMore.
Implicit Types (text t s : list N) (keywords : list (list N)).

Lemma replace_newlines_no_newline s : ~ occurs [LF] (replace [LF] [SP] s).
Proof.
  intros H. apply (occurs_elem LF) in H; [|by left].
  rewrite replace_char_map in H. apply list_elem_of_fmap in H as (c & E & _).
  destruct (c =? LF)%N eqn:Ec; [discriminate|].
  subst c. by rewrite N.eqb_refl in Ec.
Qed.

Lemma find_start_none keywords text :
  Forall (fun keyword => contains keyword text = false) keywords ->
  find_start keywords text = None.
Proof.
  induction 1 as [|k ks Hk Hks IH]; [done|]. cbn [find_start]. by rewrite Hk.
Qed.

Lemma find_end_none keywords t :
  Forall (fun keyword => contains keyword t = false) keywords ->
  find_end keywords t = t.
Proof.
  induction 1 as [|k ks Hk Hks IH]; [done|]. cbn [find_end]. by rewrite Hk.
Qed.

End IsolatorMore.

(** X4: the isolated section never contains a newline. *)
Theorem find_abstract_no_newline (text : str) :
  contains [LF] (_find_abstract text) = false.
Proof.
  apply not_contains_occurs. rewrite find_abstract_cases.
  destruct (length (cleaned_section text) <? 50);
    [|unfold cleaned_section]; apply replace_newlines_no_newline.
Qed.

(** X5: the isolated section is never longer than the text, and never
    shorter than 50 characters unless the text itself is: a non-empty
    text never gives an empty section. *)
Theorem find_abstract_length_bounds (text : str) :
  Nat.min 50 (length text) <= length (_find_abstract text) /\
  length (_find_abstract text) <= length text.
Proof.
  rewrite find_abstract_cases.
  pose proof (cleaned_section_length text) as Hc.
  destruct (length (cleaned_section text) <? 50) eqn:E.
  - rewrite replace_char_length, length_take. lia.
  - apply Nat.ltb_ge in E. lia.
Qed.

(** X6: a text in which no start marker occurs, and whose first 3000
    characters hold no end marker, is cut to its first 3000 characters:
    the section is that prefix, stripped and with newlines replaced,
    when this has at least 50 characters. *)
Theorem find_abstract_without_markers (text : str) :
  Forall (fun keyword => contains keyword text = false) start_keywords ->
  Forall (fun keyword => contains keyword (take 3000 text) = false) end_keywords ->
  50 <= length (replace [LF] [SP] (strip (take 3000 text))) ->
  _find_abstract text = replace [LF] [SP] (strip (take 3000 text)) /\
  length (_find_abstract text) <= 3000.
Proof.
  intros Hs He Hlen.
  assert (E : cleaned_section text = replace [LF] [SP] (strip (take 3000 text))).
  { unfold cleaned_section. by rewrite (find_start_none _ _ Hs), (find_end_none _ _ He). }
  rewrite find_abstract_cases, E.
  apply Nat.ltb_ge in Hlen. rewrite Hlen. split; [done|].
  rewrite replace_char_length.
  etransitivity; [apply strip_length|]. rewrite length_take. lia.
Qed.

Lemma find_abstract_without_markers_witness :
  _find_abstract
    (lit "  This report has no heading at all, only one long" ++ [LF] ++
     lit "sentence that runs over two lines.  ")
  = lit "This report has no heading at all, only one long sentence that runs over two lines.".
Proof.
  refine (proj1 (find_abstract_without_markers
    (lit "  This report has no heading at all, only one long" ++ [LF] ++
     lit "sentence that runs over two lines.  ") _ _ _)).
  - unfold start_keywords. repeat constructor.
  - unfold end_keywords. repeat constructor.
  - vm_compute. lia.
Defined.

(** ** chunk_text *)

Section Chunks.
Implicit Types (ws chunks cur : list (list N)) (w text : list N) (m len : Z).

Lemma join_snoc sep cur w :
  cur <> [] -> join sep (cur ++ [w]) = join sep cur ++ sep ++ w.
Proof.
  induction cur as [|x cur IH]; [done|]. intros _.
  destruct cur as [|y cur]; [done|].
  change (join sep ((x :: y :: cur) ++ [w]))
    with (x ++ sep ++ join sep ((y :: cur) ++ [w])).
  rewrite IH by done.
  change (join sep (x :: y :: cur)) with (x ++ sep ++ join sep (y :: cur)).
  by rewrite <- !app_assoc.
Qed.

(** The loop neither loses nor reorders words: the words of the chunks
    it returns are those already stored, those of the chunk being
    filled and those still to come. *)
Lemma chunk_loop_words m ws chunks cur len :
  Forall is_word ws -> Forall is_word cur ->
  flat_map words (chunk_loop m ws chunks cur len) =
    flat_map words chunks ++ cur ++ ws.
Proof.
  intros Hws. revert chunks cur len.
  induction Hws as [|w ws Hw Hws IH]; intros chunks cur len Hcur; cbn [chunk_loop].
  - rewrite app_nil_r. destruct cur as [|x cur]; [by rewrite app_nil_r|].
    rewrite flat_map_app. cbn [flat_map]. by rewrite app_nil_r, words_join.
  - cbv zeta.
    destruct (len + (Z.of_nat (length w) + 1) >? m)%Z.
    + rewrite IH by (constructor; [done | constructor]).
      destruct cur as [|x cur]; [done|].
      rewrite flat_map_app. cbn [flat_map].
      rewrite app_nil_r, words_join by done. by rewrite <- !app_assoc.
    + rewrite IH by (apply Forall_app; split; [done|]; constructor; [done | constructor]).
      by rewrite <- !app_assoc.
Qed.

(** The loop keeps every chunk inside the limit when every word fits.
    [len] is the joined length of the chunk being filled, plus one. *)
Lemma chunk_loop_bound m ws chunks cur len :
  Forall (fun w => (Z.of_nat (length w) < m)%Z) ws ->
  Forall (fun c => (Z.of_nat (length c) < m)%Z) chunks ->
  (cur = [] /\ len = 0%Z) \/
    (cur <> [] /\ len = (Z.of_nat (length (join [SP] cur)) + 1)%Z /\ (len <= m)%Z) ->
  Forall (fun c => (Z.of_nat (length c) < m)%Z) (chunk_loop m ws chunks cur len).
Proof.
  intros Hws. revert chunks cur len.
  induction Hws as [|w ws Hw Hws IH]; intros chunks cur len Hchunks Hcur;
    cbn [chunk_loop].
  - destruct Hcur as [[-> _]|(Hne & -> & Hle)]; [done|].
    destruct cur as [|x cur]; [done|].
    apply Forall_app. split; [done|]. constructor; [lia | constructor].
  - cbv zeta.
    destruct (Z.gtb_spec (len + (Z.of_nat (length w) + 1)) m) as [Hgt|Hle].
    + apply IH.
      * destruct Hcur as [[-> _]|(Hne & -> & Hle)]; [done|].
        destruct cur as [|x cur]; [done|].
        apply Forall_app. split; [done|]. constructor; [lia | constructor].
      * right. split; [done|]. cbn [join]. lia.
    + apply IH; [done|]. right. split; [by destruct cur|].
      destruct Hcur as [[-> ->]|(Hne & -> & Hle')].
      * cbn [app join]. lia.
      * rewrite join_snoc by done. rewrite !length_app. cbn [length]. lia.
Qed.

End Chunks.

(** X1: chunking keeps the words: read in order, the words of the
    chunks are exactly the words of the text, for every limit. *)
Theorem chunk_text_keeps_words (text : str) (max_length : Z) :
  flat_map words (chunk_text text max_length) = words text.
Proof.
  unfold chunk_text. cbn zeta.
  pose proof (chunk_loop_words max_length (words text) [] [] 0
                (words_is_word text) (List.Forall_nil _)) as H.
  cbn [flat_map app] in H.
  destruct (chunk_loop max_length (words text) [] [] 0) as [|c cs]; [|exact H].
  cbn [flat_map] in *. rewrite app_nil_r, <- H.
  apply words_nil_spaces. symmetry in H. apply words_nil_spaces in H.
  unfold slice_to. destruct (0 <=? max_length)%Z; by apply Forall_take.
Qed.

(** X2: when the limit is not negative and every word of the text is
    shorter than the limit, no chunk is longer than the limit. *)
Theorem chunk_text_within_limit (text : str) (max_length : Z) :
  (0 <= max_length)%Z ->
  Forall (fun w => (Z.of_nat (length w) < max_length)%Z) (words text) ->
  Forall (fun c => (Z.of_nat (length c) <= max_length)%Z) (chunk_text text max_length).
Proof.
  intros Hm Hws. unfold chunk_text. cbn zeta.
  pose proof (chunk_loop_bound max_length (words text) [] [] 0 Hws
                (List.Forall_nil _) (or_introl (conj eq_refl eq_refl))) as H.
  destruct (chunk_loop max_length (words text) [] [] 0) as [|c cs].
  - constructor; [|constructor]. unfold slice_to.
    destruct (Z.leb_spec 0 max_length); [|lia]. rewrite length_take. lia.
  - eapply Forall_impl; [exact H|]. cbn. intros. lia.
Qed.

Lemma chunk_text_within_limit_witness :
  Forall (fun c => (Z.of_nat (length c) <= 6)%Z)
    (chunk_text (lit "aa bbb c  dd e") 6).
Proof.
  apply (chunk_text_within_limit (lit "aa bbb c  dd e") 6); [lia|].
  vm_compute. repeat constructor.
Defined.

(** X3: [chunk_text] never returns an empty list; for a text without
    any word (empty or all whitespace) it returns the single slice
    [text[:max_length]], which may be empty. *)
Theorem chunk_text_never_empty (text : str) (max_length : Z) :
  0 < length (chunk_text text max_length) /\
  (Forall (fun c => is_space c = true) text ->
   chunk_text text max_length = [slice_to max_length text]).
Proof.
  unfold chunk_text. cbn zeta. split.
  - destruct (chunk_loop max_length (words text) [] [] 0); cbn; lia.
  - intros H%words_nil_spaces. by rewrite H.
Qed.

Lemma chunk_text_never_empty_witness :
  chunk_text [] 4000 = [[]] /\
  chunk_text (lit "   ") 2 = [lit "  "].
Proof.
  split.
  - apply (proj2 (chunk_text_never_empty [] 4000)). constructor.
  - apply (proj2 (chunk_text_never_empty (lit "   ") 2)). repeat constructor.
Defined.

(** ** The executor on arbitrary plans *)

Section Executor.
Implicit Types (w : world) (st : step) (plan : list step)
  (results : gmap string value).

(** One step that does not raise only adds or overwrites one of the
    four result keys. *)
Lemma run_step_dom w st results f :
  run_step w st results = Ret f ->
  let results' := match f with Next r | Return r => r end in
  dom results ⊆ dom results' /\
  dom results' ⊆
    dom results ∪ {[ "extracted"; "clean_text"; "summary"; "final_summary" ]}.
Proof.
  unfold run_step, getitem, as_extraction, as_str. intros H.
  repeat case_match; simplify_eq/=;
    repeat match goal with
      | H : context [mbind _ ?m] |- _ => destruct m eqn:?; simplify_eq/=
      | H : context [match ?m with _ => _ end] |- _ => destruct m eqn:?; simplify_eq/=
      end;
    rewrite ?dom_insert_L; set_solver.
Qed.

End Executor.

(** X12: the executor never removes a key: whatever the plan and the
    results so far, every key present before the loop is present in
    what the loop returns. *)
Theorem run_steps_keeps_keys (w : world) (plan : list step)
    (results : gmap string value) :
  dom results ⊆ dom (run_steps w plan results).
Proof.
  revert results. induction plan as [|st plan IH]; intros results; [done|].
  cbn [run_steps].
  destruct (run_step w st results) as [[r|r]|e] eqn:E.
  - destruct (run_step_dom _ _ _ _ E) as [H _]. etransitivity; [exact H | apply IH].
  - by destruct (run_step_dom _ _ _ _ E) as [H _].
  - rewrite dom_insert_L. set_solver.
Qed.

(** X13: whatever the plan, the result of [execute_plan] has no key
    other than 'extracted', 'clean_text', 'summary', 'final_summary'
    and 'error'. *)
Theorem execute_plan_keys (w : world) (plan : list step) :
  dom (execute_plan w plan) ⊆
    {[ "extracted"; "clean_text"; "summary"; "final_summary"; "error" ]}.
Proof.
  unfold execute_plan.
  assert (G : forall results : gmap string value,
            dom results ⊆ {[ "extracted"; "clean_text"; "summary"; "final_summary"; "error" ]} ->
            dom (run_steps w plan results) ⊆
              {[ "extracted"; "clean_text"; "summary"; "final_summary"; "error" ]}).
  { induction plan as [|st plan IH]; intros results Hr; [done|].
    cbn [run_steps].
    destruct (run_step w st results) as [[r|r]|e] eqn:E.
    - destruct (run_step_dom _ _ _ _ E) as [_ H]. apply IH. set_solver.
    - destruct (run_step_dom _ _ _ _ E) as [_ H]. set_solver.
    - rewrite dom_insert_L. set_solver. }
  apply G. set_solver.
Qed.

(** X14: a plan that starts with a step whose input key is missing ends
    at once: the KeyError is caught, its text (the key in quotes) is
    stored under 'error', and no later step runs. *)
Theorem execute_plan_missing_key (w : world) (n : Z) (input : str)
    (description : string) (rest : list step) :
  execute_plan w (Step n "clean_text" input description :: rest) =
    {[ "error" := VStr (lit "'extracted'") ]} /\
  execute_plan w (Step n "summarize" input description :: rest) =
    {[ "error" := VStr (lit "'clean_text'") ]} /\
  execute_plan w (Step n "format_output" input description :: rest) =
    {[ "error" := VStr (lit "'summary'") ]}.
Proof. repeat split. Qed.

(** X15: on the plan of [create_plan] the result always holds the
    extractor's dictionary under 'extracted', and never holds both
    'final_summary' and 'error'. *)
Theorem execute_plan_final_or_error (w : world) (pdf_path : str) :
  exists ex,
    extract_text_from_pdf w pdf_path = Ret ex /\
    execute_plan w (create_plan pdf_path) !! "extracted" = Some (VExtraction ex) /\
    (execute_plan w (create_plan pdf_path) !! "final_summary" = None \/
     execute_plan w (create_plan pdf_path) !! "error" = None).
Proof.
  destruct (extract_text_from_pdf_returns w pdf_path) as [ex Hex].
  exists ex. split; [done|].
  rewrite (execute_plan_create_plan w pdf_path ex Hex).
  destruct (success ex); [|by simplify_map_eq; auto].
  cbn zeta. destruct (summarize w (_find_abstract (text ex)));
    simplify_map_eq; auto.
Qed.

(** X16: steps whose action is none of the four known names do nothing:
    dropping them from a plan does not change the result. *)
Theorem execute_plan_skips_unknown_actions (w : world) (plan : list step) :
  execute_plan w plan =
    execute_plan w
      (List.filter
         (fun st => String.eqb (action st) "extract_text"
                    || String.eqb (action st) "clean_text"
                    || String.eqb (action st) "summarize"
                    || String.eqb (action st) "format_output")
         plan).
Proof.
  unfold execute_plan. generalize (∅ : gmap string value).
  induction plan as [|st plan IH]; intros results; [done|].
  cbn [List.filter].
  destruct (String.eqb (action st) "extract_text"
            || String.eqb (action st) "clean_text"
            || String.eqb (action st) "summarize"
            || String.eqb (action st) "format_output") eqn:E.
  - cbn [run_steps]. destruct (run_step w st results) as [[r|r]|e]; [apply IH|done|done].
  - apply orb_false_iff in E as [E E4]. apply orb_false_iff in E as [E E3].
    apply orb_false_iff in E as [E1 E2].
    cbn [run_steps]. unfold run_step. rewrite E1, E2, E3, E4. apply IH.
Qed.

(** X17: [run] returns the sanitized model output when extraction
    succeeds and the summarizer returns, and the empty string in every
    other case; its result never has more than 800 characters. *)
Theorem run_result (w : world) (pdf_path : str) :
  run w pdf_path =
    match extract_text_from_pdf w pdf_path with
    | Ret ex =>
        if success ex then
          match generate w (build_prompt (_find_abstract (text ex))) with
          | Ret full_output =>
              sanitize full_output (build_prompt (_find_abstract (text ex)))
          | Raise _ => []
          end
        else []
    | Raise _ => []
    end /\
  length (run w pdf_path) <= 800.
Proof.
  assert (E : run w pdf_path =
    match extract_text_from_pdf w pdf_path with
    | Ret ex =>
        if success ex then
          match generate w (build_prompt (_find_abstract (text ex))) with
          | Ret full_output =>
              sanitize full_output (build_prompt (_find_abstract (text ex)))
          | Raise _ => []
          end
        else []
    | Raise _ => []
    end).
  { unfold run. cbn zeta.
    destruct (extract_text_from_pdf_returns w pdf_path) as [ex Hex].
    rewrite (execute_plan_create_plan w pdf_path ex Hex), Hex.
    destruct (success ex); [|by simplify_map_eq].
    cbn zeta. unfold summarize. cbn zeta.
    destruct (generate w (build_prompt (_find_abstract (text ex))));
      cbn [mbind outcome_bind]; by simplify_map_eq. }
  split; [exact E|]. rewrite E.
  destruct (extract_text_from_pdf w pdf_path) as [ex|]; [|cbn; lia].
  destruct (success ex); [|cbn; lia].
  destruct (generate w _); [|cbn; lia].
  unfold sanitize. apply limit_length_le.
Qed.

(** ** The extractor's result *)

Section ExtractorResult.
Implicit Types (w : world) (ps : list (outcome (list N)))
  (texts : list (list N)) (acc : list N).

Lemma strip_idemp (s : list N) : strip (strip s) = strip s.
Proof.
  unfold strip at 1.
  rewrite (lstrip_no_leading_space (strip s)) by apply no_leading_space_strip.
  apply rstrip_strip.
Qed.

(** The page loop stops at the first page that raises. *)
Lemma read_pages_raise texts e ps acc :
  read_pages (map Ret texts ++ Raise e :: ps) acc = Raise e.
Proof.
  revert acc. induction texts as [|t texts IH]; intros acc; [done|].
  cbn [map app read_pages mbind outcome_bind]. apply IH.
Qed.

(** When every page is read, the loop returns the non-empty page texts
    in order, each followed by a line feed. *)
Lemma read_pages_all texts acc :
  read_pages (map Ret texts) acc =
    Ret (acc ++ flat_map (fun t => match t with [] => [] | _ :: _ => t ++ [LF] end) texts).
Proof.
  revert acc. induction texts as [|t texts IH]; intros acc.
  - cbn. by rewrite app_nil_r.
  - cbn [map read_pages mbind outcome_bind flat_map]. rewrite IH.
    destruct t; [done|]. by rewrite <- !app_assoc.
Qed.

End ExtractorResult.

(** X18: the dictionary the extractor returns is of one of two kinds:
    success without an 'error' key, or failure with an 'error' key, an
    empty text and empty metadata; in both its text has no whitespace
    at either end. *)
Theorem extract_text_from_pdf_result_shape (w : world) (pdf_path : str) :
  exists r,
    extract_text_from_pdf w pdf_path = Ret r /\
    ((success r = true /\ error r = None) \/
     (success r = false /\ (exists msg, error r = Some msg) /\
      text r = [] /\ metadata r = ∅)) /\
    strip (text r) = text r.
Proof.
  unfold extract_text_from_pdf.
  destruct (read_pdf w pdf_path) as [r|e] eqn:E.
  - exists r. split; [done|]. unfold read_pdf in E.
    destruct (open_pdf w pdf_path) as [rd|]; [|discriminate]. cbn in E.
    destruct (read_pages (pages rd) []) as [full|]; [|discriminate].
    cbn in E. injection E as <-. cbn. split; [by left | apply strip_idemp].
  - destruct (is_file_not_found e); eexists; (split; [done|]); cbn;
      (split; [right; eauto | done]).
Qed.

(** X19: one page that cannot be read fails the whole document: when the
    file opens and a page raises after the pages before it were read,
    the result is the failure dictionary, with an empty text and the
    exception's message (or "File not found: " and the path for a
    FileNotFoundError) as error. *)
Theorem extract_text_from_pdf_page_raises
    (w : world) (pdf_path : str) (rd : pdf_reader)
    (texts : list str) (e : exn) (ps : list (outcome str)) :
  open_pdf w pdf_path = Ret rd ->
  pages rd = map Ret texts ++ Raise e :: ps ->
  extract_text_from_pdf w pdf_path =
    Ret {| text := []; metadata := ∅; success := false;
           error := Some (if is_file_not_found e
                          then lit "File not found: " ++ pdf_path
                          else exn_str e) |}.
Proof.
  intros Ho Hp. unfold extract_text_from_pdf, read_pdf.
  rewrite Ho. cbn [mbind outcome_bind]. rewrite Hp, read_pages_raise.
  cbn [mbind outcome_bind]. by destruct (is_file_not_found e).
Qed.

Lemma extract_text_from_pdf_page_raises_witness :
  extract_text_from_pdf Worlds.torn_page (lit "paper.pdf") =
    Ret {| text := []; metadata := ∅; success := false;
           error := Some (lit "Invalid page object") |}.
Proof.
  exact (extract_text_from_pdf_page_raises Worlds.torn_page (lit "paper.pdf")
           _ [lit "Page one."] _ [] eq_refl eq_refl).
Defined.

(** X20: when the file opens and every page is read, extraction
    succeeds: the text is the non-empty page texts in order, each
    followed by a line feed, with "\n\n" replaced by "\n" and the ends
    stripped; 'num_pages' counts all pages, the empty ones included. *)
Theorem extract_text_from_pdf_all_pages
    (w : world) (pdf_path : str) (rd : pdf_reader) (texts : list str) :
  open_pdf w pdf_path = Ret rd ->
  pages rd = map Ret texts ->
  exists r,
    extract_text_from_pdf w pdf_path = Ret r /\
    success r = true /\ error r = None /\
    text r =
      strip (replace [LF; LF] [LF]
               (flat_map (fun t => match t with [] => [] | _ :: _ => t ++ [LF] end)
                  texts)) /\
    metadata r !! "num_pages" = Some (MInt (Z.of_nat (length texts))).
Proof.
  intros Ho Hp. unfold extract_text_from_pdf, read_pdf.
  rewrite Ho. cbn [mbind outcome_bind]. rewrite Hp, read_pages_all.
  cbn [mbind outcome_bind app]. eexists. split; [done|]. cbn.
  repeat split. rewrite length_map.
  destruct (reader_metadata rd) as [info|]; [destruct (bool_decide (info = ∅))|];
    by simplify_map_eq.
Qed.

Lemma extract_text_from_pdf_all_pages_witness :
  exists r,
    extract_text_from_pdf Worlds.all_fine (lit "paper.pdf") = Ret r /\
    success r = true /\ error r = None /\
    text r = lit "A short paper." ++ [LF] ++ lit "It has one page." /\
    metadata r !! "num_pages" = Some (MInt 1).
Proof.
  exact (extract_text_from_pdf_all_pages Worlds.all_fine (lit "paper.pdf")
           Worlds.one_page [lit "A short paper." ++ [LF] ++ lit "It has one page."]
           eq_refl eq_refl).
Defined.

(** ** The examples built for fine-tuning *)

Section Examples.
Import PrepareData.
Implicit Types (dataset : list (gmap string (option (list N))))
  (training_data : list (gmap string (list N))).

Lemma build_example_shape (it : gmap string (option (list N))) ex :
  build_example it = Ret (Some ex) ->
  exists article abstract,
    ex = {[ "text" := example_text (take 3000 article) abstract ]} /\
    (it !! "article" = Some (Some article) \/
     it !! "document" = Some (Some article)).
Proof.
  unfold build_example, slice_article. intros H.
  repeat case_match; simplify_eq/=; eauto.
Qed.

Lemma process_from_spec i dataset training_data :
  exists added,
    process_from i dataset training_data = training_data ++ added /\
    length added <= Nat.min (1000 - i) (length dataset) /\
    Forall (fun ex => exists it article abstract,
              it ∈ dataset /\
              ex = {[ "text" := example_text (take 3000 article) abstract ]} /\
              (it !! "article" = Some (Some article) \/
               it !! "document" = Some (Some article))) added /\
    process_from i (take (1000 - i) dataset) training_data =
      process_from i dataset training_data.
Proof.
  revert i training_data.
  induction dataset as [|it dataset IH]; intros i training_data.
  - exists []. rewrite take_nil. cbn. rewrite app_nil_r.
    repeat split; [lia | constructor].
  - cbn [process_from]. destruct (Nat.leb_spec 1000 i) as [Hi|Hi].
    + exists []. rewrite app_nil_r. replace (1000 - i) with 0 by lia.
      cbn. repeat split; [lia | constructor].
    + replace (1000 - i) with (S (1000 - S i)) by lia.
      cbn [take process_from length].
      destruct (Nat.leb_spec 1000 i) as [?|_]; [lia|].
      assert (Hweak : forall added : list (gmap string (list N)),
        Forall (fun ex => exists it' article abstract,
                  it' ∈ dataset /\
                  ex = {[ "text" := example_text (take 3000 article) abstract ]} /\
                  (it' !! "article" = Some (Some article) \/
                   it' !! "document" = Some (Some article))) added ->
        Forall (fun ex => exists it' article abstract,
                  it' ∈ it :: dataset /\
                  ex = {[ "text" := example_text (take 3000 article) abstract ]} /\
                  (it' !! "article" = Some (Some article) \/
                   it' !! "document" = Some (Some article))) added).
      { intros added Hadded. eapply Forall_impl; [exact Hadded|].
        intros ex (it' & a & b & Hin & Hrest). exists it', a, b.
        split; [by right | done]. }
      destruct (build_example it) as [[ex|]|e] eqn:E.
      * destruct (IH (S i) (training_data ++ [ex])) as (added & -> & Hlen & Hall & ->).
        exists (ex :: added). rewrite <- app_assoc.
        repeat split; [cbn; lia|].
        constructor; [|by apply Hweak].
        destruct (build_example_shape it ex E) as (a & b & Hex & Hcol).
        exists it, a, b. split; [by left | done].
      * destruct (IH (S i) training_data) as (added & -> & Hlen & Hall & ->).
        exists added. repeat split; [cbn; lia | by apply Hweak].
      * destruct (IH (S i) training_data) as (added & -> & Hlen & Hall & ->).
        exists added. repeat split; [cbn; lia | by apply Hweak].
Qed.

End Examples.

(** X21: the data preparation loop builds at most 1000 examples and at
    most one per record, and it looks at the first 1000 records only. *)
Theorem process_papers_at_most_1000
    (dataset : list (gmap string (option str))) :
  length (PrepareData.process_papers dataset) <= Nat.min 1000 (length dataset) /\
  PrepareData.process_papers (take 1000 dataset) = PrepareData.process_papers dataset.
Proof.
  unfold PrepareData.process_papers.
  destruct (process_from_spec 0 dataset []) as (added & E & Hlen & _ & Ht).
  split; [|exact Ht]. rewrite E. exact Hlen.
Qed.

